(** * DtreeElections: the Dirichlet-tree facade, its R interface and the
      IRV entry point, embedded from [src/dirichlet_tree.hpp], [R_tree.cpp]
      and [RcppIRV.cpp]. *)

From Stdlib Require Import QArith.
From stdpp Require Import gmap strings list fin_maps.

Set Warnings "-register-all".

Open Scope Z_scope.

(** ** Machine integers

    C++ [int], [unsigned] and [size_t] values are carried as [Z]; the
    conversions between them are written out where the source converts. *)

Definition int_of (z : Z) : Z := (z + 2 ^ 31) `mod` 2 ^ 32 - 2 ^ 31.
Definition unsigned_of (z : Z) : Z := z `mod` 2 ^ 32.
Definition size_t_of (z : Z) : Z := z `mod` 2 ^ 64.

(** ** Errors

    [Rcpp::stop(msg)] unwinds to the caller with an R error carrying
    [msg]; every use in the embedded code rejects an argument. *)

Inductive result (A : Type) : Type :=
| Ok (a : A)
| InvalidArgument (msg : string).
Global Arguments Ok {A} a.
Global Arguments InvalidArgument {A} msg.

Definition is_error {A} (r : result A) : bool :=
  match r with Ok _ => false | InvalidArgument _ => true end.

(** ** Sums of vectors *)

Definition Zsum (l : list Z) : Z := foldr Z.add 0 l.
Definition Qsum (l : list Q) : Q := foldr Qplus 0%Q l.

(** ** The pseudo-random engine

    [std::mt19937] and the distributions of [<random>] belong to the C++
    standard library; the embedding is parametric in them. *)

Class Mt19937 (E : Type) := {
  (** [engine.seed(ss)] for [std::seed_seq ss(s.begin(), s.end())] *)
  mt_seed_seq : string → E;
  (** [std::mt19937 e(value)] *)
  mt_seed : Z → E;
  (** [e()] : the next 32-bit word and the advanced engine *)
  mt_next : E → Z * E;
}.

Class Distributions (E : Type) := {
  (** a uniform draw from [0, k) *)
  uniform_index : nat → E → nat * E;
  uniform_index_lt : ∀ k e, (0 < k)%nat → ((uniform_index k e).1 < k)%nat;
  (** one Dirichlet(alpha) realisation followed by a Multinomial(n, theta)
      draw; one count per entry of [alpha] *)
  dirichlet_multinomial : list Q → nat → E → list nat * E;
  (** one Dirichlet(alpha) realisation, as probabilities *)
  dirichlet : list Q → E → list Q * E;
}.

Section Engine.
Context {E : Type} `{!Mt19937 E}.

(** [e.discard(n)] *)
Definition mt_discard (n : N) (e : E) : E :=
  N.iter n (λ e, (mt_next e).2) e.

(** [std::mt19937::state_size] *)
Definition state_size : N := 624%N.

(** [for (auto i = 1000; i; --i) engine();] *)
Definition warmup (e : E) : E := mt_discard 1000 e.
End Engine.
Global Arguments mt_discard : simpl never.
Global Arguments warmup : simpl never.

(** ** The template [DirichletTree<NodeType, Outcome, Parameters>]

    The facade is a template: it is embedded over every implementation
    of the calls it makes on its arguments.  The node classes
    ([tree_node.hpp]) are not among the embedded files.  A node is
    constructed with a pointer to the parameters of the tree that owns
    it, so every node operation reads the parameters current at the time
    of the call.  Sampling and the marginal probability leave the nodes
    as they are (section 5 of the specification: the tree is read-only
    during simulation); only [update] returns a new node. *)

Class ParametersType (Parameters : Type) := {
  defaultPath : Parameters → list nat;
}.

Class NodeType (Node Outcome Parameters E Prob : Type) := {
  (** [new NodeType(depth, &parameters)] *)
  new_node : Z → Parameters → Node;
  (** [node->update(o, path, count)] *)
  node_update : Parameters → Node → Outcome → list nat → Z → Node;
  (** [node->marginalProbability(o, path, engine)] *)
  node_marginalProbability :
    Parameters → Node → Outcome → list nat → E → Prob * E;
  (** [node->sample(n, path, engine)] *)
  node_sample : Parameters → Node → Z → list nat → E → list Outcome * E;
}.

Module DirichletTree.
Section Facade.
Context {Node Outcome Parameters E Prob : Type}.
Context `{!Mt19937 E, !ParametersType Parameters,
          !NodeType Node Outcome Parameters E Prob}.

Record t : Type := mk {
  root : Node;
  parameters : Parameters;
  observed : list Outcome;
  engine : E;
}.

Definition set_engine (e : E) (tr : t) : t :=
  mk (root tr) (parameters tr) (observed tr) e.

Definition set_parameters (p : Parameters) (tr : t) : t :=
  mk (root tr) p (observed tr) (engine tr).

(** [setSeed]: re-seed from the string, then discard 1000 words. *)
Definition setSeed (seed : string) (tr : t) : t :=
  set_engine (warmup (mt_seed_seq seed)) tr.

(** The constructor: a fresh root at depth 0, no observation, and the
    engine seeded and warmed up by [setSeed]. *)
Definition make (parameters_ : Parameters) (seed : string) : t :=
  mk (new_node 0 parameters_) parameters_ [] (warmup (mt_seed_seq seed)).

(** [reset]: [delete root; root = new NodeType(0, &parameters);] *)
Definition reset (tr : t) : t :=
  mk (new_node 0 (parameters tr)) (parameters tr) (observed tr) (engine tr).

(** [update]: [observed.push_back(o)], then the root is updated along
    the default path. *)
Definition update (tr : t) (o : Outcome) (count : Z) : t :=
  let observed' := observed tr ++ [o] in
  let path := defaultPath (parameters tr) in
  mk (node_update (parameters tr) (root tr) o path count)
     (parameters tr) observed' (engine tr).

(** An [std::mt19937 *] argument: [None] is [nullptr], for which the
    facade falls back on its own engine (and so advances it); [Some e]
    is a caller-owned engine, advanced in place. *)
Definition use_engine {A : Type} (tr : t) (engine_ : option E)
    (f : E → A * E) : A * t * option E :=
  match engine_ with
  | None => let '(a, e') := f (engine tr) in (a, set_engine e' tr, None)
  | Some e => let '(a, e') := f e in (a, tr, Some e')
  end.

Definition marginalProbability (tr : t) (o : Outcome) (engine_ : option E)
  : Prob * t * option E :=
  let path := defaultPath (parameters tr) in
  use_engine tr engine_
    (node_marginalProbability (parameters tr) (root tr) o path).

Definition sample (tr : t) (n : Z) (engine_ : option E)
  : list Outcome * t * option E :=
  let path := defaultPath (parameters tr) in
  use_engine tr engine_ (node_sample (parameters tr) (root tr) n path).

(** The body of [for (auto i = 0; i < N; ++i)] in [posteriorSets], run
    [iters] times. *)
Fixpoint posteriorSets_loop (iters : nat) (N n : Z) (tr : t)
    (engine_ : option E) (out : list (list Outcome))
  : list (list Outcome) * t * option E :=
  match iters with
  | O => (out, tr, engine_)
  | S iters' =>
      let old_outcomes := observed tr in
      let '(new_outcomes, tr', engine_') := sample tr (N - n) engine_ in
      posteriorSets_loop iters' N n tr' engine_'
                         (out ++ [old_outcomes ++ new_outcomes])
  end.

(** [posteriorSets(nSets, N, engine)].  The loop runs while [i < N]. *)
Definition posteriorSets (tr : t) (nSets N : Z) (engine_ : option E)
  : list (list Outcome) * t * option E :=
  let n := int_of (Z.of_nat (length (observed tr))) in
  posteriorSets_loop (Z.to_nat N) N n tr engine_ [].

End Facade.
Global Arguments t : clear implicits.
Global Arguments mk {_ _ _ _}.
End DirichletTree.

(** ** IRV ballots, parameters, nodes and the social choice function

    [irv_ballot.hpp], [irv_node.hpp] and [tree_node.hpp] are included by
    the embedded files; the definitions of this module stand for them. *)

Module IRV.

(** Modelled from the spec: [IRVBallot] of [irv_ballot.hpp] is missing.
    A ballot is an ordered sequence of candidate indices (section 4.2);
    the code reads it through [preferences] and [nPreferences()]. *)
Record IRVBallot : Type := mkIRVBallot { preferences : list nat }.

(** Modelled from the spec: [IRVBallot::nPreferences] is missing; it is
    the length of the ballot (4.2). *)
Definition nPreferences (b : IRVBallot) : Z :=
  Z.of_nat (length (preferences b)).

Global Instance IRVBallot_eq_dec : EqDecision IRVBallot.
Proof. solve_decision. Defined.

(** Modelled from the spec: [IRVBallotCount] of [irv_ballot.hpp] is
    missing; it is a ballot paired with its multiplicity (4.2), read by
    the code through [first] and [second]. *)
Definition IRVBallotCount : Type := IRVBallot * Z.

(** Modelled from the spec: [IRVParameters] of [irv_node.hpp] is missing.
    Its fields are those of section 4.1, under the names of the getters
    the code calls ([getNCandidates], [getMinDepth], [getMaxDepth],
    [getA0], [getVD]). *)
Record IRVParameters : Type := mkIRVParameters {
  getNCandidates : Z;
  getMinDepth : Z;
  getMaxDepth : Z;
  getA0 : Q;
  getVD : bool;
}.

(** Modelled from the spec: the setters of [IRVParameters] are missing;
    each replaces one mutable field (4.1). *)
Definition setMinDepth (minDepth_ : Z) (p : IRVParameters) : IRVParameters :=
  mkIRVParameters (getNCandidates p) minDepth_ (getMaxDepth p) (getA0 p)
                  (getVD p).

(** Modelled from the spec: [IRVParameters::setMaxDepth] is missing. *)
Definition setMaxDepth (maxDepth_ : Z) (p : IRVParameters) : IRVParameters :=
  mkIRVParameters (getNCandidates p) (getMinDepth p) maxDepth_ (getA0 p)
                  (getVD p).

(** Modelled from the spec: [IRVParameters::setA0] is missing. *)
Definition setA0 (a0_ : Q) (p : IRVParameters) : IRVParameters :=
  mkIRVParameters (getNCandidates p) (getMinDepth p) (getMaxDepth p) a0_
                  (getVD p).

(** Modelled from the spec: [IRVParameters::setVD] is missing. *)
Definition setVD (vd_ : bool) (p : IRVParameters) : IRVParameters :=
  mkIRVParameters (getNCandidates p) (getMinDepth p) (getMaxDepth p)
                  (getA0 p) vd_.

(** Modelled from the spec: [IRVParameters::defaultPath] is missing; it
    is the empty prefix (4.1, [default_path]). *)
Global Instance IRVParameters_type : ParametersType IRVParameters :=
  {| defaultPath := λ _, [] |}.

(** Modelled from the spec: the scaling of the reducible mode is missing
    with [IRVParameters].  The number of complete ballots in the subtree
    below a node of depth [d] (3, tree structure): a node at [max_depth]
    or with no candidate left is a leaf; an interior node has one branch
    per remaining candidate and, from [min_depth] on, the halt branch. *)
Fixpoint terminals (fuel : nat) (p : IRVParameters) (d : Z) : Z :=
  match fuel with
  | O => 1
  | S fuel' =>
      if bool_decide (getMaxDepth p ≤ d ∨ getNCandidates p ≤ d) then 1
      else (if bool_decide (getMinDepth p ≤ d) then 1 else 0)
           + (getNCandidates p - d) * terminals fuel' p (d + 1)
  end.

(** Modelled from the spec: [effective_a0(depth)] of 4.1 is missing with
    [IRVParameters]; it is [a0], scaled in reducible mode by the size of
    the subtree beneath a branch (9, reducible mode). *)
Definition effective_a0 (p : IRVParameters) (d : Z) : Q :=
  if getVD p
  then (getA0 p * inject_Z (terminals (Z.to_nat (getNCandidates p)) p (d + 1)))%Q
  else getA0 p.

(** Modelled from the spec: [IRVNode] of [irv_node.hpp] is missing.  By
    4.3 a node of depth [d] holds one pseudo-count increment per branch
    (a remaining candidate, or halt) and its materialized children; an
    absent count is 0 and an absent child is a fresh node. *)
Inductive IRVNode : Type := mkIRVNode {
  node_depth : Z;
  c_branch : gmap nat Z;
  c_halt : Z;
  children : gmap nat IRVNode;
}.

(** Modelled from the spec: the constructor of [IRVNode] is missing; a
    new node has all counts at 0 and no child (3, lazy materialization). *)
Definition fresh_node (d : Z) : IRVNode := mkIRVNode d ∅ 0 ∅.

(** Modelled from the spec: the count [c_b] of a branch of the missing
    [IRVNode] (4.3). *)
Definition count_of (node : IRVNode) (b : nat) : Z :=
  default 0 (c_branch node !! b).

(** Modelled from the spec: the child of the missing [IRVNode] along a
    branch, a fresh node of the next depth when not materialized (3). *)
Definition child_of (node : IRVNode) (b : nat) : IRVNode :=
  default (fresh_node (node_depth node + 1)) (children node !! b).

(** Modelled from the spec: [IRVNode::update] is missing.  By 4.3.1, on
    the preferences still ahead of the node: none left ([k == d])
    increments the halt count; otherwise the count of the next candidate
    is incremented and the update continues in its child, materialized if
    absent. *)
Fixpoint update_from (rest : list nat) (count : Z) (node : IRVNode)
  : IRVNode :=
  match rest with
  | [] => mkIRVNode (node_depth node) (c_branch node) (c_halt node + count)
                    (children node)
  | b :: rest' =>
      mkIRVNode (node_depth node)
                (<[b := count_of node b + count]> (c_branch node))
                (c_halt node)
                (<[b := update_from rest' count (child_of node b)]>
                   (children node))
  end.

(** Modelled from the spec: [IRVNode::update] is missing; by 4.3.1 empty
    ballots are skipped at the root, and any other ballot is followed
    from the depth of the node on. *)
Definition IRVNode_update (p : IRVParameters) (node : IRVNode)
    (o : IRVBallot) (path : list nat) (count : Z) : IRVNode :=
  match preferences o with
  | [] => node
  | _ => update_from (drop (length path) (preferences o)) count node
  end.

(** Modelled from the spec: the branches of the missing [IRVNode].  The
    node reached by [path] has the candidates not yet chosen as branches
    (3, tree structure). *)
Definition remaining (p : IRVParameters) (path : list nat) : list nat :=
  filter (λ c, c ∉ path) (seq 0 (Z.to_nat (getNCandidates p))).

(** Modelled from the spec: the missing [IRVNode] has a halt branch when
    [min_depth <= d < max_depth] (3, tree structure). *)
Definition has_halt (p : IRVParameters) (d : Z) : bool :=
  bool_decide (getMinDepth p ≤ d < getMaxDepth p).

(** Modelled from the spec: the branches of the missing [IRVNode], the
    remaining candidates and then halt ([None]). *)
Definition branches (p : IRVParameters) (path : list nat)
  : list (option nat) :=
  (Some <$> remaining p path)
  ++ (if has_halt p (Z.of_nat (length path)) then [None] else []).

(** Modelled from the spec: the pseudo-counts of the missing [IRVNode],
    [alpha_b = effective_a0(d) + c_b] (4.3). *)
Definition alpha (p : IRVParameters) (node : IRVNode) (d : Z)
    (b : option nat) : Q :=
  (effective_a0 p d
   + inject_Z (match b with Some c => count_of node c | None => c_halt node end))%Q.

(** Modelled from the spec: the pseudo-counts of all branches of the
    missing [IRVNode], in the order of [branches]. *)
Definition alphas (p : IRVParameters) (node : IRVNode) (path : list nat)
  : list Q :=
  alpha p node (Z.of_nat (length path)) <$> branches p path.

Section Sampling.
Context {E : Type} `{!Distributions E}.

(** Modelled from the spec: [IRVNode::sample] is missing.  By 4.3.2 one
    Dirichlet-multinomial draw at the node splits the [n] ballots over
    its branches; the halt branch emits the prefix, a branch reaching
    [max_depth] emits the extended prefix, any other branch is sampled in
    its child (a fresh node when not materialized).  By 4.3.4 a node with
    one candidate left and [max_depth >= n_candidates] draws nothing: all
    ballots continue with that candidate. *)
Fixpoint sample_rec (fuel : nat) (p : IRVParameters) (node : IRVNode)
    (n : nat) (path : list nat) (e : E) : list IRVBallot * E :=
  match fuel with
  | O => ([], e)
  | S fuel' =>
      let draw :=
        let '(m, e1) := dirichlet_multinomial (alphas p node path) n e in
        foldl
          (λ (acc : list IRVBallot * E) (bm : option nat * nat),
             let '(out, e2) := acc in
             match bm with
             | (_, O) => (out, e2)
             | (None, m_b) => (out ++ replicate m_b (mkIRVBallot path), e2)
             | (Some c, m_b) =>
                 if bool_decide (Z.of_nat (length path) + 1 = getMaxDepth p)
                 then (out ++ replicate m_b (mkIRVBallot (path ++ [c])), e2)
                 else
                   let '(sub, e3) :=
                     sample_rec fuel' p (child_of node c) m_b (path ++ [c]) e2
                   in (out ++ sub, e3)
             end)
          ([], e1) (zip (branches p path) m) in
      match remaining p path with
      | [c] =>
          if bool_decide (getNCandidates p ≤ getMaxDepth p)
          then (replicate n (mkIRVBallot (path ++ [c])), e)
          else draw
      | _ => draw
      end
  end.

(** Modelled from the spec: [IRVNode::sample] is missing; the recursion
    of 4.3.2 ends after one node per candidate at most. *)
Definition IRVNode_sample (p : IRVParameters) (node : IRVNode) (n : Z)
    (path : list nat) (e : E) : list IRVBallot * E :=
  sample_rec (S (Z.to_nat (getNCandidates p))) p node (Z.to_nat n) path e.

(** Modelled from the spec: the position of a branch among the branches
    of the missing [IRVNode]. *)
Definition branch_index (bs : list (option nat)) (b : option nat)
  : option nat :=
  fst <$> list_find (λ b', b' = b) bs.

(** Modelled from the spec: [IRVNode::marginalProbability] is missing.
    By 4.3.3, one draw of the marginal probability of the ballot whose
    preferences still ahead of the node are [rest]. *)
Fixpoint marginal_from (rest : list nat) (p : IRVParameters)
    (node : IRVNode) (path : list nat) (e : E) : Q * E :=
  let '(theta, e1) := dirichlet (alphas p node path) e in
  let pr (b : option nat) : Q :=
    match branch_index (branches p path) b with
    | Some i => default 0%Q (theta !! i)
    | None => 0%Q
    end in
  match rest with
  | [] => (pr None, e1)
  | c :: rest' =>
      if bool_decide (Z.of_nat (length path) + 1 = getMaxDepth p)
      then (pr (Some c), e1)
      else
        let '(q, e2) :=
          marginal_from rest' p (child_of node c) (path ++ [c]) e1 in
        ((pr (Some c) * q)%Q, e2)
  end.

(** Modelled from the spec: [IRVNode::marginalProbability] is missing;
    the ballot is followed from the depth of the node on (4.3.3). *)
Definition IRVNode_marginalProbability (p : IRVParameters) (node : IRVNode)
    (o : IRVBallot) (path : list nat) (e : E) : Q * E :=
  marginal_from (drop (length path) (preferences o)) p node path e.

(** Modelled from the spec: the missing [IRVNode] as the node type of
    the facade. *)
Global Instance IRVNode_type : NodeType IRVNode IRVBallot IRVParameters E Q :=
  {| new_node := λ depth _, fresh_node depth;
     node_update := IRVNode_update;
     node_marginalProbability := IRVNode_marginalProbability;
     node_sample := IRVNode_sample |}.

(** Modelled from the spec: [socialChoiceIRV] is missing.  The first
    preference of a ballot that still stands, which is where the pointer
    of 4.5 comes to rest; none when the ballot is exhausted. *)
Definition first_standing (standing : list nat) (b : IRVBallot)
  : option nat :=
  head (filter (λ c, c ∈ standing) (preferences b)).

(** Modelled from the spec: [socialChoiceIRV] is missing.  The tally of
    a standing candidate (4.5, step 2a), each ballot weighing its count. *)
Definition tally (ballots : list IRVBallotCount) (standing : list nat)
    (c : nat) : Z :=
  foldr Z.add 0
        (snd <$> filter (λ bc, first_standing standing bc.1 = Some c) ballots).

(** Modelled from the spec: [socialChoiceIRV] is missing.  The minimum
    tally over the standing candidates (4.5, step 2b). *)
Definition min_tally (ballots : list IRVBallotCount) (standing : list nat)
  : Z :=
  match tally ballots standing <$> standing with
  | [] => 0
  | x :: xs => foldr Z.min x xs
  end.

(** Modelled from the spec: [socialChoiceIRV] is missing.  The standing
    candidates that hold the minimum tally (4.5, step 2b). *)
Definition tied_minimum (ballots : list IRVBallotCount)
    (standing : list nat) : list nat :=
  filter (λ c, tally ballots standing c = min_tally ballots standing)
         standing.

(** Modelled from the spec: [socialChoiceIRV] is missing.  The candidate
    to eliminate: the one holding the minimum when it is unique, else one
    of the tied candidates drawn uniformly from the engine (4.5, 2b). *)
Definition eliminate (ballots : list IRVBallotCount) (standing : list nat)
    (e : E) : nat * E :=
  match tied_minimum ballots standing with
  | [c] => (c, e)
  | tied => let '(i, e') := uniform_index (length tied) e in
            (default 0%nat (tied !! i), e')
  end.

(** Modelled from the spec: [socialChoiceIRV] is missing.  The loop of
    4.5: while more than one candidate stands, one is eliminated and
    appended to the order; the last one standing is appended as winner. *)
Fixpoint irv_rounds (fuel : nat) (ballots : list IRVBallotCount)
    (standing : list nat) (e : E) (order : list nat) : list nat * E :=
  match fuel with
  | O => (order ++ standing, e)
  | S fuel' =>
      match standing with
      | _ :: _ :: _ =>
          let '(c, e') := eliminate ballots standing e in
          irv_rounds fuel' ballots (filter (λ c', c' ≠ c) standing) e'
                     (order ++ [c])
      | _ => (order ++ standing, e)
      end
  end.

(** Modelled from the spec: [socialChoiceIRV] is declared in a header
    that is missing.  All candidates stand at first, and [n - 1] rounds
    leave one standing (4.5). *)
Definition socialChoiceIRV (ballots : list IRVBallotCount) (nCandidates : Z)
    (e : E) : list nat * E :=
  let n := Z.to_nat nCandidates in
  irv_rounds n ballots (seq 0 n) e [].

End Sampling.
End IRV.

(** ** [RDirichletTree]: the R interface of [R_tree.cpp]

    The interface is written against a tree over [IRVNode], [IRVBallot]
    and [IRVParameters]; it is embedded once for every node
    implementation.  It hands the facade (ballot, count) pairs:
    [tree->update(bc)] observes the ballot [bc.first] with count
    [bc.second], and each sampled ballot is read back with count 1. *)

Definition with_count (b : IRV.IRVBallot) : IRV.IRVBallotCount := (b, 1).

Module RDirichletTree.
Import IRV.
Section Interface.
Context {Node E : Type}.
Context `{!Mt19937 E, !Distributions E,
          !NodeType Node IRVBallot IRVParameters E Q}.

(** Modelled from the spec: the declaration of the class ([R_tree.h]) is
    missing.  Its members are those [R_tree.cpp] uses, typed as
    [PIRVDirichletTree] declares them, with the set of distinct observed
    depths of section 3. *)
Record t : Type := mk {
  tree : DirichletTree.t Node IRVBallot IRVParameters E;
  candidateVector : list string;
  candidateMap : gmap string nat;
  nObserved : Z;
  observedDepths : gset Z;
}.

Definition set_tree (tr : DirichletTree.t Node IRVBallot IRVParameters E)
    (st : t) : t :=
  mk tr (candidateVector st) (candidateMap st) (nObserved st)
     (observedDepths st).

Definition parameters_of (st : t) : IRVParameters :=
  DirichletTree.parameters (tree st).

(** The state with the engine of its tree replaced. *)
Definition with_engine (e : E) (st : t) : t :=
  set_tree (DirichletTree.set_engine e (tree st)) st.

(** The inner loop of [parseBallotList]: one ballot, name by name. *)
Fixpoint parseBallot (cm : gmap string nat) (namePrefs : list string)
    (indexPrefs : list nat) : result (list nat) :=
  match namePrefs with
  | [] => Ok indexPrefs
  | cName :: namePrefs' =>
      match cm !! cName with
      | None => InvalidArgument "Unknown candidate encountered in ballot!"
      | Some cIndex => parseBallot cm namePrefs' (indexPrefs ++ [cIndex])
      end
  end.

Fixpoint parseBallotList_loop (cm : gmap string nat)
    (bs : list (list string)) (out : list IRVBallotCount)
  : result (list IRVBallotCount) :=
  match bs with
  | [] => Ok out
  | namePrefs :: bs' =>
      match parseBallot cm namePrefs [] with
      | InvalidArgument msg => InvalidArgument msg
      | Ok indexPrefs =>
          parseBallotList_loop cm bs' (out ++ [(mkIRVBallot indexPrefs, 1)])
      end
  end.

Definition parseBallotList (st : t) (bs : list (list string))
  : result (list IRVBallotCount) :=
  parseBallotList_loop (candidateMap st) bs [].

(** The constructor: each candidate name is mapped to its position. *)
Definition index_candidates (candidates : list string) : gmap string nat :=
  (foldl (λ (acc : gmap string nat * nat) cName,
            (<[cName := acc.2]> acc.1, S acc.2))
         (∅, 0%nat) candidates).1.

Definition make (candidates : list string) (minDepth_ maxDepth_ : Z)
    (a0_ : Q) (vd_ : bool) (seed_ : string) : t :=
  let params :=
    mkIRVParameters (Z.of_nat (length candidates)) minDepth_ maxDepth_ a0_
                    vd_ in
  mk (DirichletTree.make params seed_) candidates
     (index_candidates candidates) 0 ∅.

(** The texts of the two [Rcpp::warning]s. *)
Definition minDepth_warning : string :=
  "Ballots with fewer than `minDepth` preferences specified have been observed. Some sampling techniques could now exhibit undefined behaviour. A Dirichlet Posterior can no longer reduce to a tree of height 1. Consider setting `minDepth` to a value lower than the length of the smallest ballot.".

Definition update_warning : string :=
  "Updating a Dirichlet-tree distribution with a ballot specifying fewer than `minDepth` preferences. This introduces undefined behaviour to the sampling methods, and the resulting posterior can no longer reduce to a Dirichlet distribution when using the `vd` option. Consider setting `minDepth` to a value lower than the length of the smallest ballot.".

(** [setMinDepth]: the state after the call and either the warnings
    raised or the error that stopped it. *)
Definition setMinDepth (st : t) (minDepth_ : Z) : t * result (list string) :=
  if bool_decide (getMaxDepth (parameters_of st) < minDepth_)
  then (st, InvalidArgument
              "Cannot set `minDepth` to a value larger than `maxDepth`.")
  else
    let tr := DirichletTree.set_parameters
                (IRV.setMinDepth minDepth_ (parameters_of st)) (tree st) in
    (set_tree tr st,
     Ok (if bool_decide (set_Exists (λ d, d < minDepth_ ∧ 0 < d)
                                    (observedDepths st))
         then [minDepth_warning] else [])).

Definition setMaxDepth (st : t) (maxDepth_ : Z) : t * result unit :=
  if bool_decide (maxDepth_ < getMinDepth (parameters_of st))
  then (st, InvalidArgument
              "Cannot set `maxDepth` to a value less than `minDepth`.")
  else
    (set_tree (DirichletTree.set_parameters
                 (IRV.setMaxDepth maxDepth_ (parameters_of st)) (tree st)) st,
     Ok ()).

Definition setA0 (st : t) (a0_ : Q) : t :=
  set_tree (DirichletTree.set_parameters
              (IRV.setA0 a0_ (parameters_of st)) (tree st)) st.

Definition setVD (st : t) (vd_ : bool) : t :=
  set_tree (DirichletTree.set_parameters
              (IRV.setVD vd_ (parameters_of st)) (tree st)) st.

(** [getCandidates]: the keys of [candidateMap], in the order the map
    iterates them (which the standard leaves open; the order of the
    embedding is that of the finite map). *)
Definition getCandidates (st : t) : list string :=
  (map_to_list (candidateMap st)).*1.

(** The depth [update] records for a ballot. *)
Definition depth_of (b : IRVBallot) : Z := unsigned_of (nPreferences b).

(** The counter and the set of depths agree with the list of observed
    ballots the tree holds. *)
Definition in_sync (st : t) : Prop :=
  nObserved st = Z.of_nat (length (DirichletTree.observed (tree st)))
  ∧ observedDepths st
    = list_to_set (depth_of <$> DirichletTree.observed (tree st)).

(** The two depth parameters are in order. *)
Definition depths_ordered (st : t) : Prop :=
  getMinDepth (parameters_of st) ≤ getMaxDepth (parameters_of st).

(** [reset]: [tree->reset(); nObserved = 0; observedDepths.clear();] *)
Definition reset (st : t) : t :=
  mk (DirichletTree.reset (tree st)) (candidateVector st) (candidateMap st)
     0 ∅.

(** The body of the loop of [update] over the parsed ballots. *)
Definition update_step (minDepth : Z) (acc : t * list string)
    (bc : IRVBallotCount) : t * list string :=
  let '(st, warnings) := acc in
  let depth := unsigned_of (nPreferences bc.1) in
  let warnings' :=
    if bool_decide (depth < minDepth ∧ 0 < depth)
    then warnings ++ [update_warning] else warnings in
  (mk (DirichletTree.update (tree st) bc.1 bc.2)
      (candidateVector st) (candidateMap st)
      (size_t_of (nObserved st + bc.2))
      ({[depth]} ∪ observedDepths st),
   warnings').

(** [update]: all ballots are parsed before the first one is applied. *)
Definition update (st : t) (ballots : list (list string))
  : t * result (list string) :=
  let minDepth := getMinDepth (parameters_of st) in
  match parseBallotList st ballots with
  | InvalidArgument msg => (st, InvalidArgument msg)
  | Ok bcs =>
      let '(st', warnings) := foldl (update_step minDepth) (st, []) bcs in
      (st', Ok warnings)
  end.

(** A ballot as the names of its candidates, [candidateVector[cIndex]]. *)
Definition names_of (st : t) (b : IRVBallot) : list string :=
  (λ cIndex, candidateVector st !!! cIndex) <$> preferences b.

Definition samplePredictive (st : t) (nSamples : Z) (seed : string)
  : t * list (list string) :=
  let tr1 := DirichletTree.setSeed seed (tree st) in
  let '(samples, tr2, _) := DirichletTree.sample tr1 (int_of nSamples) None in
  (set_tree tr2 st,
   mjoin ((λ bc : IRVBallotCount,
             replicate (Z.to_nat bc.2) (names_of st bc.1))
            <$> (with_count <$> samples))).

(** [for (unsigned i = 0; i <= nBatches; ++i)]: one word of the tree's
    engine is pushed onto [seeds] per iteration. *)
Fixpoint draw_seeds (iters : nat) (e : E) (seeds : list Z) : list Z * E :=
  match iters with
  | O => (seeds, e)
  | S iters' =>
      let '(w, e') := mt_next e in
      draw_seeds iters' e' (seeds ++ [unsigned_of w])
  end.

Definition batch_sizes (nElections nBatches : Z) : Z * Z :=
  if bool_decide (nElections ≤ 1) then (0, nElections)
  else (nElections `div` nBatches, nElections `mod` nBatches).

(** [for (auto &el : elections) results[i].push_back(socialChoiceIRV(el,
    nCandidates, &e))]: the elimination orders, in the order pushed. *)
Fixpoint score_elections (elections : list (list IRVBallot))
    (nCandidates : Z) (e : E) : list (list nat) :=
  match elections with
  | [] => []
  | el :: elections' =>
      let '(order, e') := socialChoiceIRV (with_count <$> el) nCandidates e in
      order :: score_elections elections' nCandidates e'
  end.

(** [getBatchResult(i, batchSize)]: everything but the pushes is local to
    the job; the tree and [seeds] are only read.  The poll for a user
    interrupt is left out: the embedding is of calls that run to their
    end. *)
Definition getBatchResult
    (tr : DirichletTree.t Node IRVBallot IRVParameters E) (seeds : list Z)
    (nBallots nCandidates : Z) (i : nat) (batchSize : Z)
  : list (list nat) :=
  let e := mt_discard (state_size * 100) (mt_seed (seeds !!! i)) in
  let '(elections, _, e1) :=
    DirichletTree.posteriorSets tr (int_of batchSize) (int_of nBallots)
                                (Some e) in
  score_elections elections nCandidates (default e e1).

(** The work submitted: [pool.parallelFor(0, nBatches, ...)] gives job
    [i < nBatches] the batch size, and the calling thread runs job
    [nBatches] on the remainder when there is one. *)
Definition job_orders
    (tr : DirichletTree.t Node IRVBallot IRVParameters E) (seeds : list Z)
    (nBallots nCandidates : Z) (nBatches : nat)
    (batchSize batchRemainder : Z) (i : nat) : list (list nat) :=
  if bool_decide (i < nBatches)%nat
  then getBatchResult tr seeds nBallots nCandidates i batchSize
  else if bool_decide (i = nBatches ∧ 0 < batchRemainder)
       then getBatchResult tr seeds nBallots nCandidates i batchRemainder
       else [].

(** One step of the shared store [results]: job [i] pushes its next
    elimination order onto [results[i]]. *)
Definition push_step (orders : list (list (list nat)))
    (results : list (list (list nat))) (i : nat) : list (list (list nat)) :=
  match (orders !!! i) !! length (results !!! i) with
  | Some order => <[i := results !!! i ++ [order]]> results
  | None => results
  end.

Definition run_schedule (orders : list (list (list nat)))
    (results : list (list (list nat))) (sched : list nat)
  : list (list (list nat)) :=
  foldl (push_step orders) results sched.

(** The schedule of a run that completes job after job. *)
Definition sequential_schedule (orders : list (list (list nat)))
  : list nat :=
  mjoin ((λ i, replicate (length (orders !!! i)) i)
           <$> seq 0 (length orders)).

(** The number of pushes of job [i] in a schedule. *)
Definition pushes_of (i : nat) (sched : list nat) : nat :=
  length (filter (λ j, j = i) sched).

(** The worker jobs that have pushed before position [pos] of a schedule
    and push again from it on. *)
Definition in_flight (nBatches : nat) (sched : list nat) (pos : nat)
  : list nat :=
  filter (λ i, i ∈ take pos sched ∧ i ∈ drop pos sched) (seq 0 nBatches).

(** The interleavings a pool of [hw] workers can produce: every job makes
    all its pushes, in its own order, and no more than [hw] worker jobs
    (one, for a pool without workers) are under way at a time.  The last
    job is the one of the calling thread. *)
Definition is_schedule (hw : nat) (orders : list (list (list nat)))
    (sched : list nat) : bool :=
  forallb (λ i, bool_decide (pushes_of i sched = length (orders !!! i)))
          (seq 0 (length orders))
  && forallb (λ i, bool_decide (i < length orders)%nat) sched
  && forallb (λ pos, bool_decide
                       (length (in_flight (length orders - 1) sched pos)
                        ≤ hw `max` 1)%nat)
             (seq 0 (S (length sched))).

(** The aggregation: each elimination order counts its last [nWinners]
    entries. *)
Definition count_winners (nCandidates nWinners : Z) (out : list Z)
    (elimination_order_idx : list nat) : list Z :=
  let first := Z.to_nat (size_t_of (nCandidates - nWinners)) in
  foldl (λ out i, let c := elimination_order_idx !!! i in
                  <[c := out !!! c + 1]> out)
        out (seq first (Z.to_nat nCandidates - first)).

Definition aggregate (nCandidates nWinners : Z)
    (results : list (list (list nat))) : list Z :=
  foldl (foldl (count_winners nCandidates nWinners))
        (replicate (Z.to_nat nCandidates) 0) results.

(** [out / nElections] *)
Definition normalise (nElections : Z) (out : list Z) : list Q :=
  (λ c, inject_Z c / inject_Z nElections)%Q <$> out.

(** The state of the call once the seeds are drawn: the tree with its
    engine re-seeded, advanced and warmed up, and the seeds. *)
Definition seeded (st : t) (nBatches : Z) (seed : string)
  : DirichletTree.t Node IRVBallot IRVParameters E * list Z :=
  let tr1 := DirichletTree.setSeed seed (tree st) in
  let '(seeds, e1) :=
    draw_seeds (S (Z.to_nat nBatches)) (DirichletTree.engine tr1) [] in
  (DirichletTree.set_engine (mt_discard (state_size * 100) e1) tr1, seeds).

(** The elimination orders of the jobs [0], ..., [nBatches]. *)
Definition posterior_jobs (st : t) (nElections nBallots nBatches : Z)
    (seed : string) : list (list (list nat)) :=
  let '(tr2, seeds) := seeded st nBatches seed in
  let nCandidates := getNCandidates (DirichletTree.parameters tr2) in
  let '(batchSize, batchRemainder) := batch_sizes nElections nBatches in
  job_orders tr2 seeds nBallots nCandidates (Z.to_nat nBatches)
             batchSize batchRemainder
    <$> seq 0 (S (Z.to_nat nBatches)).

(** [samplePosterior], for the interleaving [sched] of the pushes. *)
Definition samplePosterior_with (sched : list nat) (st : t)
    (nElections nBallots nWinners nBatches : Z) (seed : string)
  : t * result (list Q) :=
  if bool_decide (nBallots < nObserved st)
  then (st, InvalidArgument
              "`nBallots` must be larger than the number of ballots observed to obtain the posterior.")
  else
    let '(tr2, _) := seeded st nBatches seed in
    let nCandidates := getNCandidates (DirichletTree.parameters tr2) in
    let orders := posterior_jobs st nElections nBallots nBatches seed in
    let results :=
      run_schedule orders
        (replicate (Z.to_nat (unsigned_of (nBatches + 1))) []) sched in
    let out := aggregate nCandidates nWinners results in
    (set_tree tr2 st, Ok (normalise nElections out)).

(** [samplePosterior] when the jobs complete one after the other. *)
Definition samplePosterior (st : t)
    (nElections nBallots nWinners nBatches : Z) (seed : string)
  : t * result (list Q) :=
  samplePosterior_with
    (sequential_schedule
       (posterior_jobs st nElections nBallots nBatches seed))
    st nElections nBallots nWinners nBatches seed.

End Interface.
Global Arguments t : clear implicits.
End RDirichletTree.

(** ** [PIRVDirichletTree]: the interface of [RcppIRV.cpp] *)

Module PIRVDirichletTree.
Import IRV.
Section Interface.
Context {Node E : Type}.
Context `{!Mt19937 E, !NodeType Node IRVBallot IRVParameters E Q}.

Record t : Type := mk {
  tree : DirichletTree.t Node IRVBallot IRVParameters E;
  candidateVector : list string;
  candidateMap : gmap string nat;
  nObserved : Z;
}.

(** The state with the engine of its tree replaced. *)
Definition with_engine (e : E) (st : t) : t :=
  mk (DirichletTree.set_engine e (tree st)) (candidateVector st)
     (candidateMap st) (nObserved st).

(** [parseBallotList] of [PIRVDirichletTree]: the loops are those of
    [RDirichletTree::parseBallotList]. *)
Definition parseBallotList (st : t) (bs : list (list string))
  : result (list IRVBallotCount) :=
  RDirichletTree.parseBallotList_loop (candidateMap st) bs [].

(** [reset]: [tree->reset(); nObserved = 0;] *)
Definition reset (st : t) : t :=
  mk (DirichletTree.reset (tree st)) (candidateVector st) (candidateMap st) 0.

(** The body of the loop of [update]: [nObserved += bc.second;
    tree->update(bc);] *)
Definition update_step (st : t) (bc : IRVBallotCount) : t :=
  mk (DirichletTree.update (tree st) bc.1 bc.2) (candidateVector st)
     (candidateMap st) (size_t_of (nObserved st + bc.2)).

Definition update (st : t) (ballots : list (list string)) : t * result unit :=
  match parseBallotList st ballots with
  | InvalidArgument msg => (st, InvalidArgument msg)
  | Ok bcs => (foldl update_step st bcs, Ok ())
  end.

(** [candidateMap[name]] on an [std::unordered_map]: a name that is not a
    key is inserted with the value 0. *)
Definition index_or_insert (cm : gmap string nat) (name : string)
  : nat * gmap string nat :=
  match cm !! name with
  | Some cIndex => (cIndex, cm)
  | None => (0%nat, <[name := 0%nat]> cm)
  end.

Fixpoint ballot_indices (cm : gmap string nat) (ballot : list string)
    (preferences : list nat) : list nat * gmap string nat :=
  match ballot with
  | [] => (preferences, cm)
  | name :: ballot' =>
      let '(cIndex, cm') := index_or_insert cm name in
      ballot_indices cm' ballot' (preferences ++ [cIndex])
  end.

(** [for (auto i = 0; i < nSamples; ++i)]: one draw per iteration, each
    on the tree's own engine. *)
Fixpoint marginal_draws (iters : nat)
    (tr : DirichletTree.t Node IRVBallot IRVParameters E) (b : IRVBallot)
    (out : list Q)
  : list Q * DirichletTree.t Node IRVBallot IRVParameters E :=
  match iters with
  | O => (out, tr)
  | S iters' =>
      let '(prob, tr', _) := DirichletTree.marginalProbability tr b None in
      marginal_draws iters' tr' b (out ++ [prob])
  end.

Definition sampleMarginalProbability (st : t) (nSamples : Z)
    (ballot : list string) (seed : string) : t * list Q :=
  let tr1 := DirichletTree.setSeed seed (tree st) in
  let '(preferences, cm) := ballot_indices (candidateMap st) ballot [] in
  let b := mkIRVBallot preferences in
  let '(out, tr2) := marginal_draws (Z.to_nat nSamples) tr1 b [] in
  (mk tr2 (candidateVector st) cm (nObserved st), out).

End Interface.
Global Arguments t : clear implicits.
End PIRVDirichletTree.

(** ** [RSocialChoiceIRV] of [RcppIRV.cpp] *)

Section SocialChoice.
Import IRV.
Context {E : Type} `{!Mt19937 E, !Distributions E}.

(** The loop over the ballots: candidates are indexed in the order they
    are first seen; empty ballots are skipped. *)
Record IndexState : Type := mkIndexState {
  c2Index : gmap string nat;
  cNames : list string;
  scInput : list IRVBallotCount;
}.

Fixpoint index_names (bNames : list string) (c2Index : gmap string nat)
    (cNames : list string) (bIndices : list nat)
  : gmap string nat * list string * list nat :=
  match bNames with
  | [] => (c2Index, cNames, bIndices)
  | cName :: bNames' =>
      match c2Index !! cName with
      | None =>
          index_names bNames' (<[cName := length cNames]> c2Index)
                      (cNames ++ [cName]) (bIndices ++ [length cNames])
      | Some cIndex =>
          index_names bNames' c2Index cNames (bIndices ++ [cIndex])
      end
  end.

Fixpoint index_ballots (bs : list (list string)) (s : IndexState)
  : IndexState :=
  match bs with
  | [] => s
  | [] :: bs' => index_ballots bs' s
  | bNames :: bs' =>
      let '(c2Index', cNames', bIndices) :=
        index_names bNames (c2Index s) (cNames s) [] in
      index_ballots bs'
        (mkIndexState c2Index' cNames'
                      (scInput s ++ [(mkIRVBallot bIndices, 1)]))
  end.

Record IRVResult : Type := mkIRVResult {
  elimination_order : list string;
  winners : list string;
}.

(** The names at the positions [from], ..., [to - 1] of an elimination
    order. *)
Definition names_between (cNames : list string)
    (elimination_order_idx : list nat) (from to : nat) : list string :=
  (λ i, cNames !!! (elimination_order_idx !!! i)) <$> seq from (to - from).

Definition RSocialChoiceIRV (bs : list (list string)) (nWinners : Z)
    (seed : string) : result IRVResult :=
  let s := index_ballots bs (mkIndexState ∅ [] []) in
  let n := Z.of_nat (length (cNames s)) in
  if bool_decide (nWinners < 1 ∨ n ≤ nWinners)
  then InvalidArgument
         "`nWinners` must be >= 1 and <= the number of candidates."
  else if bool_decide (length (scInput s) = 0%nat)
  then InvalidArgument "No valid ballots for the IRV social choice function."
  else
    let e := mt_discard (state_size * 100) (mt_seed_seq seed) in
    let elimination_order_idx := (socialChoiceIRV (scInput s) n e).1 in
    (* [cNames.size() - nWinners]: the guard has [nWinners < n] *)
    let split := Z.to_nat (n - nWinners) in
    Ok (mkIRVResult
          (names_between (cNames s) elimination_order_idx 0 split)
          (names_between (cNames s) elimination_order_idx split
                         (length (cNames s)))).

End SocialChoice.

(** ** Ballots of names and ballots of indices *)

(** The ballot of indices a ballot of names stands for: each name by its
    value in the map, the ballot with count 1. *)
Definition indexed (cm : gmap string nat) (ballot : list string)
  : IRV.IRVBallotCount :=
  (IRV.mkIRVBallot ((λ name, cm !!! name) <$> ballot), 1).

(** The map from names to indices and the vector of names describe each
    other: a name is a key with value [i] exactly when it is at position
    [i] of the vector. *)
Definition indexes (c2Index : gmap string nat) (cNames : list string)
  : Prop :=
  ∀ name i, c2Index !! name = Some i ↔ cNames !! i = Some name.

(** The names an indexed ballot stands for. *)
Definition decoded (cNames : list string) (bc : IRV.IRVBallotCount)
  : list string :=
  (λ i, cNames !!! i) <$> IRV.preferences bc.1.

(** ** A concrete engine

    A small 16-bit linear congruential generator with the interface of
    the engine, and the simplest draws over it; the statements below that
    are evaluated on a concrete state are evaluated over it and over the
    IRV nodes above. *)

Module Lcg.

Definition hash_string (s : string) : Z :=
  foldl (λ h a, Z.land (h * 31 + Z.of_nat (Ascii.nat_of_ascii a)) 65535) 7
        (String.list_ascii_of_string s).

Definition next (e : Z) : Z * Z :=
  let e' := Z.land (25173 * e + 13849) 65535 in (e', e').

Global Instance engine : Mt19937 Z :=
  {| mt_seed_seq := hash_string; mt_seed := λ v, Z.land v 65535;
     mt_next := next |}.

Definition index (k : nat) (e : Z) : nat * Z :=
  let '(w, e') := next e in (Z.to_nat (w `mod` Z.of_nat k), e').

(** All [n] draws fall on one branch, chosen by the next word. *)
Definition multinomial (alpha : list Q) (n : nat) (e : Z) : list nat * Z :=
  let '(i, e') := index (length alpha) e in
  (<[i := n]> (replicate (length alpha) 0%nat), e').

(** The mean of the Dirichlet distribution. *)
Definition mean (alpha : list Q) (e : Z) : list Q * Z :=
  let total := foldr Qplus 0%Q alpha in
  ((λ a, Qred (a / total))%Q <$> alpha, (next e).2).

Global Instance distributions : Distributions Z.
Proof.
  refine {| uniform_index := index; dirichlet_multinomial := multinomial;
            dirichlet := mean |}.
  intros k e Hk. unfold index. destruct (next e) as [w e']. simpl.
  pose proof (Z.mod_pos_bound w (Z.of_nat k)). lia.
Defined.

End Lcg.

Module Examples.
Import IRV.

Definition three : RDirichletTree.t IRVNode Z :=
  RDirichletTree.make ["A"; "B"; "C"] 0 3 1%Q false "12345".

Definition three_observed : RDirichletTree.t IRVNode Z :=
  (RDirichletTree.update three [["A"; "B"]; ["C"]]).1.

Definition three_pirv : PIRVDirichletTree.t IRVNode Z :=
  PIRVDirichletTree.mk (RDirichletTree.tree three) ["A"; "B"; "C"]
                       (RDirichletTree.candidateMap three) 0.

Definition empty_ballot : IRVBallot := mkIRVBallot [].

End Examples.

(** * Properties *)

(** ** The facade *)

Section FacadeProperties.
Context {Node Outcome Parameters E Prob : Type}.
Context `{!Mt19937 E, !ParametersType Parameters,
          !NodeType Node Outcome Parameters E Prob}.
Implicit Types (tr : DirichletTree.t Node Outcome Parameters E).

(** A call with a caller-owned engine leaves the tree as it is. *)
Lemma use_engine_some {A : Type} tr e (f : E → A * E) :
  DirichletTree.use_engine tr (Some e) f = ((f e).1, tr, Some (f e).2).
Proof. unfold DirichletTree.use_engine. by destruct (f e). Qed.

(** Sampling changes at most the engine of the tree. *)
Lemma sample_frame tr n (engine_ : option E) :
  let tr' := (DirichletTree.sample tr n engine_).1.2 in
  DirichletTree.root tr' = DirichletTree.root tr
  ∧ DirichletTree.parameters tr' = DirichletTree.parameters tr
  ∧ DirichletTree.observed tr' = DirichletTree.observed tr.
Proof.
  unfold DirichletTree.sample, DirichletTree.use_engine.
  destruct engine_ as [e|]; by destruct (node_sample _ _ _ _ _).
Qed.

Lemma sample_some tr n e :
  (DirichletTree.sample tr n (Some e)).1.2 = tr
  ∧ is_Some (DirichletTree.sample tr n (Some e)).2.
Proof.
  unfold DirichletTree.sample. rewrite use_engine_some. simpl. eauto.
Qed.

Lemma posteriorSets_loop_spec iters N n tr (engine_ : option E) out :
  let r := DirichletTree.posteriorSets_loop iters N n tr engine_ out in
  length r.1.1 = (length out + iters)%nat
  ∧ DirichletTree.observed r.1.2 = DirichletTree.observed tr
  ∧ (Forall (λ l, DirichletTree.observed tr `prefix_of` l) out →
     Forall (λ l, DirichletTree.observed tr `prefix_of` l) r.1.1).
Proof.
  revert tr engine_ out.
  induction iters as [|iters IH]; intros tr engine_ out; simpl.
  { split_and!; [lia | done | done]. }
  pose proof (sample_frame tr (N - n) engine_) as (_ & _ & Hobs).
  destruct (DirichletTree.sample tr (N - n) engine_)
    as [[new_outcomes tr'] engine_'] eqn:Hs.
  simpl in Hobs.
  specialize (IH tr' engine_' (out ++ [DirichletTree.observed tr ++ new_outcomes])).
  simpl in IH. destruct IH as (Hlen & Hobs' & Hpre).
  rewrite Hobs in Hobs', Hpre.
  split_and!.
  - rewrite Hlen, length_app. simpl. lia.
  - done.
  - intros Hout. apply Hpre, Forall_app. split; [done|].
    apply Forall_singleton. by apply prefix_app_r.
Qed.

(** C1. [posteriorSets(nSets, N)] returns [N] sets, whatever [nSets] is:
    its loop is bounded by [N], not by [nSets].  Every set returned does
    begin with the observed outcomes.  So the number of sets is the one
    asked for only when [nSets] happens to equal [N]. *)
Theorem posteriorSets_returns_N_sets tr (nSets N : Z) (engine_ : option E) :
  let sets := (DirichletTree.posteriorSets tr nSets N engine_).1.1 in
  length sets = Z.to_nat N
  ∧ Forall (λ l, DirichletTree.observed tr `prefix_of` l) sets.
Proof.
  unfold DirichletTree.posteriorSets.
  pose proof (posteriorSets_loop_spec (Z.to_nat N) N
                (int_of (Z.of_nat (length (DirichletTree.observed tr))))
                tr engine_ []) as (Hlen & _ & Hpre).
  simpl in *. split; [done | by apply Hpre].
Qed.

(** With a caller-owned engine, [posteriorSets] leaves the tree as it
    is. *)
Lemma posteriorSets_loop_some iters N n tr e out :
  (DirichletTree.posteriorSets_loop iters N n tr (Some e) out).1.2 = tr
  ∧ is_Some (DirichletTree.posteriorSets_loop iters N n tr (Some e) out).2.
Proof.
  revert e out.
  induction iters as [|iters IH]; intros e out;
    cbn [DirichletTree.posteriorSets_loop].
  { simpl. eauto. }
  pose proof (sample_some tr (N - n) e) as [Htr [e' He']].
  destruct (DirichletTree.sample tr (N - n) (Some e))
    as [[new_outcomes tr'] engine_'].
  simpl in Htr, He'. subst. apply IH.
Qed.

(** [reset] replaces the root by a fresh node and nothing else. *)
Lemma reset_frame tr :
  DirichletTree.root (DirichletTree.reset tr)
  = new_node 0 (DirichletTree.parameters tr)
  ∧ DirichletTree.parameters (DirichletTree.reset tr)
    = DirichletTree.parameters tr
  ∧ DirichletTree.observed (DirichletTree.reset tr)
    = DirichletTree.observed tr
  ∧ DirichletTree.engine (DirichletTree.reset tr) = DirichletTree.engine tr.
Proof. done. Qed.

(** C8. Two updates with count 1 push the outcome onto the observed list
    twice, one update with count 2 pushes it once: the count does not
    reach the list, and the two tree states differ. *)
Theorem update_twice_observed tr (o : Outcome) :
  let twice := DirichletTree.update (DirichletTree.update tr o 1) o 1 in
  let once := DirichletTree.update tr o 2 in
  DirichletTree.observed twice = DirichletTree.observed tr ++ [o; o]
  ∧ DirichletTree.observed once = DirichletTree.observed tr ++ [o]
  ∧ twice ≠ once.
Proof.
  simpl. split_and!.
  - by rewrite <- app_assoc.
  - done.
  - intros Heq. apply (f_equal DirichletTree.observed) in Heq.
    apply (f_equal length) in Heq. simpl in Heq.
    rewrite !length_app in Heq. simpl in Heq. lia.
Qed.

End FacadeProperties.

(** ** The R interface *)

Section InterfaceProperties.
Import IRV.
Context {Node E : Type}.
Context `{!Mt19937 E, !Distributions E,
          !NodeType Node IRVBallot IRVParameters E Q}.
Implicit Types (st : RDirichletTree.t Node E).

(** C2. [reset] gives the tree a fresh root, keeps the parameters, zeroes
    the count of observed ballots and empties the observed depths, but
    the list of observed outcomes of the tree, the one [posteriorSets]
    copies into every set, is the list from before the call. *)
Theorem reset_keeps_observed st :
  let st' := RDirichletTree.reset st in
  DirichletTree.root (RDirichletTree.tree st')
  = new_node 0 (RDirichletTree.parameters_of st)
  ∧ RDirichletTree.parameters_of st' = RDirichletTree.parameters_of st
  ∧ RDirichletTree.nObserved st' = 0
  ∧ RDirichletTree.observedDepths st' = ∅
  ∧ DirichletTree.observed (RDirichletTree.tree st')
    = DirichletTree.observed (RDirichletTree.tree st).
Proof. done. Qed.

(** C5. A call of the posterior driver with [nBallots < nObserved] stops
    with the error before anything is touched: the state returned is the
    state given, whatever the interleaving would have been. *)
Theorem samplePosterior_rejects_nBallots st
    (nElections nBallots nWinners nBatches : Z) (seed : string) :
  nBallots < RDirichletTree.nObserved st →
  ∃ msg,
    RDirichletTree.samplePosterior st nElections nBallots nWinners nBatches
                                   seed
    = (st, InvalidArgument msg)
    ∧ ∀ sched,
        RDirichletTree.samplePosterior_with sched st nElections nBallots
                                            nWinners nBatches seed
        = (st, InvalidArgument msg).
Proof.
  intros Hlt. eexists.
  unfold RDirichletTree.samplePosterior, RDirichletTree.samplePosterior_with.
  rewrite bool_decide_eq_true_2 by done. split; [reflexivity | done].
Qed.

Lemma parseBallot_unknown (cm : gmap string nat) namePrefs name indexPrefs :
  name ∈ namePrefs → cm !! name = None →
  RDirichletTree.parseBallot cm namePrefs indexPrefs
  = InvalidArgument "Unknown candidate encountered in ballot!".
Proof.
  revert indexPrefs.
  induction namePrefs as [|cName namePrefs IH]; intros indexPrefs Hin Hnone.
  { by apply elem_of_nil in Hin. }
  simpl. destruct (cm !! cName) as [cIndex|] eqn:Hc; [|done].
  apply elem_of_cons in Hin as [->|Hin]; [congruence | by apply IH].
Qed.

Lemma parseBallotList_loop_unknown (cm : gmap string nat) bs ballot name out :
  ballot ∈ bs → name ∈ ballot → cm !! name = None →
  RDirichletTree.parseBallotList_loop cm bs out
  = InvalidArgument "Unknown candidate encountered in ballot!".
Proof.
  revert out. induction bs as [|namePrefs bs IH]; intros out Hin Hname Hnone.
  { by apply elem_of_nil in Hin. }
  simpl. apply elem_of_cons in Hin as [<-|Hin].
  { by rewrite (parseBallot_unknown cm ballot name []). }
  destruct (RDirichletTree.parseBallot cm namePrefs []) as [indexPrefs|msg] eqn:Hp.
  - by apply IH.
  - (* the first unknown name stops the parse with the same message *)
    clear -Hp. revert Hp. generalize (@nil nat).
    induction namePrefs as [|cName namePrefs IHn]; intros acc; simpl; [done|].
    destruct (cm !! cName); [apply IHn | congruence].
Qed.

(** C6, as amended. [update] stops with the error as soon as one of the
    ballots names a candidate that is not known to the tree, and then
    none of the ballots of the call has been applied: the state is the
    one given. *)
Theorem update_rejects_unknown_candidate st (ballots : list (list string))
    (ballot : list string) (name : string) :
  ballot ∈ ballots → name ∈ ballot →
  RDirichletTree.candidateMap st !! name = None →
  RDirichletTree.update st ballots
  = (st, InvalidArgument "Unknown candidate encountered in ballot!").
Proof.
  intros Hin Hname Hnone. unfold RDirichletTree.update,
    RDirichletTree.parseBallotList.
  by rewrite (parseBallotList_loop_unknown _ ballots ballot name []).
Qed.

Section EmptyBallot.
(** Section 4.3.1 of the specification has the node skip an empty ballot;
    the node is not part of the embedded files. *)
Hypothesis node_skips_empty :
  ∀ (p : IRVParameters) (node : Node) (path : list nat) (count : Z),
    node_update p node (mkIRVBallot []) path count = node.

(** C7, as amended. An update with the empty ballot leaves the root, and
    with it every node and count, the parameters and the engine as they
    are, and pushes the ballot onto the list of observed outcomes like
    any other ballot. *)
Theorem update_empty_ballot
    (tr : DirichletTree.t Node IRVBallot IRVParameters E) (count : Z) :
  DirichletTree.update tr (mkIRVBallot []) count
  = DirichletTree.mk (DirichletTree.root tr) (DirichletTree.parameters tr)
                     (DirichletTree.observed tr ++ [mkIRVBallot []])
                     (DirichletTree.engine tr).
Proof. unfold DirichletTree.update. by rewrite node_skips_empty. Qed.
End EmptyBallot.


Lemma seeded_with_engine e st nBatches seed :
  RDirichletTree.seeded (RDirichletTree.with_engine e st) nBatches seed
  = RDirichletTree.seeded st nBatches seed.
Proof. done. Qed.

Lemma posterior_jobs_with_engine e st nElections nBallots nBatches seed :
  RDirichletTree.posterior_jobs (RDirichletTree.with_engine e st) nElections nBallots
                                nBatches seed
  = RDirichletTree.posterior_jobs st nElections nBallots nBatches seed.
Proof. done. Qed.

End InterfaceProperties.

(** ** The social choice function *)

Section SocialChoiceProperties.
Import IRV.
Context {E : Type} `{!Mt19937 E, !Distributions E}.

Lemma foldr_min_attained (x : Z) (l : list Z) :
  foldr Z.min x l ∈ x :: l.
Proof.
  induction l as [|y l IH]; simpl; [by left|].
  destruct (Z.min_spec y (foldr Z.min x l)) as [[_ ->]|[_ ->]].
  - right. by left.
  - apply elem_of_cons in IH as [->|IH]; [by left | by do 2 right].
Qed.

(** Some standing candidate holds the minimum tally. *)
Lemma tied_minimum_nonempty (ballots : list IRVBallotCount) standing :
  standing ≠ [] → tied_minimum ballots standing ≠ [].
Proof.
  intros Hne. unfold tied_minimum, min_tally.
  destruct standing as [|c standing]; [done|]. clear Hne.
  rewrite fmap_cons.
  pose proof (foldr_min_attained
                (tally ballots (c :: standing) c)
                (tally ballots (c :: standing) <$> standing)) as Hin.
  rewrite <- fmap_cons in Hin.
  apply list_elem_of_fmap in Hin as (c' & Hc' & Hin).
  intros Hnil.
  assert (c' ∈ filter (λ c0, tally ballots (c :: standing) c0
                             = foldr Z.min (tally ballots (c :: standing) c)
                                     (tally ballots (c :: standing) <$> standing))
                      (c :: standing)) as Hf.
  { apply list_elem_of_filter. by split. }
  rewrite Hnil in Hf. by apply elem_of_nil in Hf.
Qed.

(** The candidate eliminated in a round is a standing one. *)
Lemma eliminate_standing (ballots : list IRVBallotCount) standing (e : E) :
  standing ≠ [] → (eliminate ballots standing e).1 ∈ standing.
Proof.
  intros Hne. pose proof (tied_minimum_nonempty ballots standing Hne) as Ht.
  assert (∀ c, c ∈ tied_minimum ballots standing → c ∈ standing) as Hsub.
  { intros c Hc. unfold tied_minimum in Hc.
    by apply list_elem_of_filter in Hc as [_ ?]. }
  unfold eliminate.
  assert (∀ tied, tied ≠ [] →
            (let '(i, e') := uniform_index (length tied) e in
             (default 0%nat (tied !! i), e')).1 ∈ tied) as Hdraw.
  { intros tied Hn.
    pose proof (uniform_index_lt (length tied) e) as Hlt.
    destruct (uniform_index (length tied) e) as [i e']. simpl in *.
    destruct (lookup_lt_is_Some_2 tied i) as [c Hc].
    { apply Hlt. destruct tied; [done | simpl; lia]. }
    rewrite Hc. simpl. by eapply list_elem_of_lookup_2. }
  destruct (tied_minimum ballots standing) as [|c [|c' tied]] eqn:Htied;
    [done | | ].
  - simpl. apply Hsub. by left.
  - apply Hsub. by apply Hdraw.
Qed.

Lemma filter_ne_absent (c : nat) (l : list nat) :
  c ∉ l → filter (λ c', c' ≠ c) l = l.
Proof.
  induction l as [|x l IH]; intros Hc; [done|].
  apply not_elem_of_cons in Hc as [Hne Hc].
  rewrite filter_cons_True by done. by rewrite IH.
Qed.

Lemma filter_ne_Permutation (c : nat) (l : list nat) :
  NoDup l → c ∈ l → c :: filter (λ c', c' ≠ c) l ≡ₚ l.
Proof.
  induction l as [|x l IH]; intros Hnd Hin.
  { by apply elem_of_nil in Hin. }
  apply NoDup_cons in Hnd as [Hx Hnd].
  destruct (decide (x = c)) as [->|Hne].
  - rewrite filter_cons_False by naive_solver.
    by rewrite filter_ne_absent.
  - rewrite filter_cons_True by done.
    apply elem_of_cons in Hin as [->|Hin]; [done|].
    rewrite Permutation_swap. f_equiv. by apply IH.
Qed.

Lemma irv_rounds_Permutation fuel (ballots : list IRVBallotCount)
    standing (e : E) order :
  NoDup standing →
  (irv_rounds fuel ballots standing e order).1 ≡ₚ order ++ standing.
Proof.
  revert standing e order.
  induction fuel as [|fuel IH]; intros standing e order Hnd; simpl; [done|].
  destruct standing as [|a [|b standing]]; [done | done |].
  pose proof (eliminate_standing ballots (a :: b :: standing) e) as Hin.
  destruct (eliminate ballots (a :: b :: standing) e) as [c e'].
  simpl in Hin. specialize (Hin ltac:(done)).
  rewrite IH by by apply NoDup_filter.
  rewrite <- app_assoc. f_equiv. simpl.
  by apply filter_ne_Permutation.
Qed.

(** The rounds end because one candidate is left standing, not because
    the fuel runs out: once the fuel covers all but one of the standing
    candidates, more fuel changes nothing. *)
Lemma irv_rounds_fuel fuel (ballots : list IRVBallotCount) standing (e : E)
    order :
  NoDup standing → (length standing ≤ S fuel)%nat →
  irv_rounds (S fuel) ballots standing e order
  = irv_rounds fuel ballots standing e order.
Proof.
  revert standing e order.
  induction fuel as [|fuel IH]; intros standing e order Hnd Hlen.
  { destruct standing as [|a [|b standing]]; simpl in *; [done | done | lia]. }
  destruct standing as [|a [|b standing]]; [done | done |].
  cbn [irv_rounds].
  pose proof (eliminate_standing ballots (a :: b :: standing) e) as Hin.
  destruct (eliminate ballots (a :: b :: standing) e) as [c e'].
  simpl in Hin. specialize (Hin ltac:(done)).
  apply IH; [by apply NoDup_filter|].
  pose proof (filter_ne_Permutation c (a :: b :: standing) Hnd Hin) as Hperm.
  apply Permutation_length in Hperm. simpl in *. lia.
Qed.

Lemma socialChoiceIRV_fuel (ballots : list IRVBallotCount)
    (nCandidates : Z) (e : E) :
  let n := Z.to_nat nCandidates in
  irv_rounds (S n) ballots (seq 0 n) e [] = socialChoiceIRV ballots nCandidates e.
Proof.
  intros n. unfold socialChoiceIRV. fold n.
  apply irv_rounds_fuel; [apply NoDup_seq | rewrite length_seq; lia].
Qed.

(** The elimination order is a permutation of the candidate indices. *)
Lemma socialChoiceIRV_Permutation (ballots : list IRVBallotCount)
    (nCandidates : Z) (e : E) :
  (socialChoiceIRV ballots nCandidates e).1 ≡ₚ seq 0 (Z.to_nat nCandidates).
Proof.
  unfold socialChoiceIRV. rewrite irv_rounds_Permutation; [done|].
  apply NoDup_seq.
Qed.

(** A candidate's tally depends on who stands, not on the order they are
    listed in. *)
Lemma tally_ext (ballots : list IRVBallotCount) (l1 l2 : list nat)
    (c : nat) :
  (∀ y, y ∈ l1 ↔ y ∈ l2) → tally ballots l1 c = tally ballots l2 c.
Proof.
  intros Hiff. unfold tally. do 2 f_equal.
  apply list_filter_iff. intros bc. unfold first_standing.
  by rewrite (list_filter_iff (λ c0, c0 ∈ l1) (λ c0, c0 ∈ l2)).
Qed.

Lemma foldr_min_le (x y : Z) (l : list Z) :
  y ∈ x :: l → foldr Z.min x l ≤ y.
Proof.
  induction l as [|z l IH]; simpl; intros Hy.
  { apply list_elem_of_singleton in Hy. lia. }
  apply elem_of_cons in Hy as [->|Hy].
  - etrans; [apply Z.le_min_r|]. apply IH. by left.
  - apply elem_of_cons in Hy as [->|Hy]; [apply Z.le_min_l|].
    etrans; [apply Z.le_min_r|]. apply IH. by right.
Qed.

(** No standing candidate has a tally below the minimum. *)
Lemma min_tally_le (ballots : list IRVBallotCount) (standing : list nat)
    (c : nat) :
  c ∈ standing → min_tally ballots standing ≤ tally ballots standing c.
Proof.
  intros Hc. unfold min_tally.
  destruct standing as [|a standing]; [by apply elem_of_nil in Hc|].
  rewrite fmap_cons. apply foldr_min_le. rewrite <- fmap_cons.
  by apply list_elem_of_fmap_2.
Qed.

(** The candidate eliminated in a round holds the minimum tally. *)
Lemma eliminate_tied (ballots : list IRVBallotCount) standing (e : E) :
  standing ≠ [] →
  (eliminate ballots standing e).1 ∈ tied_minimum ballots standing.
Proof.
  intros Hne. pose proof (tied_minimum_nonempty ballots standing Hne) as Ht.
  unfold eliminate.
  assert (∀ tied, tied ≠ [] →
            (let '(i, e') := uniform_index (length tied) e in
             (default 0%nat (tied !! i), e')).1 ∈ tied) as Hdraw.
  { intros tied Hn.
    pose proof (uniform_index_lt (length tied) e) as Hlt.
    destruct (uniform_index (length tied) e) as [i e']. simpl in *.
    destruct (lookup_lt_is_Some_2 tied i) as [c Hc].
    { apply Hlt. destruct tied; [done | simpl; lia]. }
    rewrite Hc. simpl. by eapply list_elem_of_lookup_2. }
  destruct (tied_minimum ballots standing) as [|c [|c' tied]] eqn:Htied;
    [done | | ].
  - simpl. by left.
  - by apply Hdraw.
Qed.

(** The rounds of the count: the order is extended by the standing
    candidates, and every candidate but the last is, at its round, one
    with the fewest ballots among those still standing. *)
Lemma irv_rounds_minimal fuel (ballots : list IRVBallotCount) standing
    (e : E) order :
  NoDup standing → (length standing ≤ S fuel)%nat →
  ∃ rest,
    (irv_rounds fuel ballots standing e order).1 = order ++ rest
    ∧ rest ≡ₚ standing
    ∧ ∀ k c c',
        rest !! k = Some c → (S k < length rest)%nat → c' ∈ drop k rest →
        tally ballots (drop k rest) c ≤ tally ballots (drop k rest) c'.
Proof.
  revert standing e order.
  induction fuel as [|fuel IH]; intros standing e order Hnd Hlen.
  { exists standing. split_and!; [done | done |]. intros k c c' _ Hk. lia. }
  destruct standing as [|a [|b standing]].
  { exists []. split_and!; [done | done |]. intros k c c' _ Hk.
    simpl in Hk. lia. }
  { exists [a]. split_and!; [done | done |]. intros k c c' _ Hk.
    simpl in Hk. lia. }
  cbn [irv_rounds].
  pose proof (eliminate_tied ballots (a :: b :: standing) e ltac:(done))
    as Htied.
  destruct (eliminate ballots (a :: b :: standing) e) as [c0 e'].
  simpl in Htied. set (st := a :: b :: standing) in *.
  apply list_elem_of_filter in Htied as [Hmin Hin].
  pose proof (filter_ne_Permutation c0 st Hnd Hin) as Hperm.
  destruct (IH (filter (λ c', c' ≠ c0) st) e' (order ++ [c0]))
    as (rest & Hres & Hrest & Hleast).
  { by apply NoDup_filter. }
  { apply Permutation_length in Hperm. simpl in *. lia. }
  exists (c0 :: rest). split_and!.
  - by rewrite Hres, <- app_assoc.
  - by rewrite Hrest.
  - intros k c c' Hk Hlt Hc'. destruct k as [|k].
    + injection Hk as <-. rewrite drop_0 in *.
      assert (∀ y, y ∈ c0 :: rest ↔ y ∈ st) as Hiff.
      { intros y. by rewrite Hrest, Hperm. }
      rewrite !(tally_ext ballots (c0 :: rest) st) by done.
      rewrite Hmin. apply min_tally_le. by apply Hiff.
    + simpl in *. apply (Hleast k); [done | lia | done].
Qed.

(** Every candidate of the elimination order but the last is, when its
    turn comes, one with the fewest ballots among the candidates that
    come no earlier, each ballot counting for the first of them it
    ranks. *)
Lemma socialChoiceIRV_minimal (ballots : list IRVBallotCount)
    (nCandidates : Z) (e : E) (k c c' : nat) :
  let order := (socialChoiceIRV ballots nCandidates e).1 in
  order !! k = Some c → (S k < length order)%nat → c' ∈ drop k order →
  tally ballots (drop k order) c ≤ tally ballots (drop k order) c'.
Proof.
  intros order. subst order. unfold socialChoiceIRV.
  destruct (irv_rounds_minimal (Z.to_nat nCandidates) ballots
              (seq 0 (Z.to_nat nCandidates)) e [])
    as (rest & Hres & _ & Hleast).
  { apply NoDup_seq. }
  { rewrite length_seq. lia. }
  rewrite Hres. simpl. apply Hleast.
Qed.

End SocialChoiceProperties.

Section RSocialChoiceIRVProperties.
Import IRV.
Context {E : Type} `{!Mt19937 E, !Distributions E}.

Lemma fmap_lookup_total_seq {A B : Type} `{!Inhabited A} (f : A → B)
    (l : list A) :
  (λ i, f (l !!! i)) <$> seq 0 (length l) = f <$> l.
Proof.
  apply list_eq. intros i. rewrite !list_lookup_fmap.
  destruct (decide (i < length l)%nat) as [Hlt|Hge].
  - rewrite lookup_seq_lt by done. simpl.
    by rewrite (list_lookup_lookup_total_lt l i).
  - rewrite lookup_seq_ge by lia. simpl.
    by rewrite (proj2 (lookup_ge_None l i)) by lia.
Qed.

Lemma lookup_total_seq {A : Type} `{!Inhabited A} (l : list A) :
  (λ i, l !!! i) <$> seq 0 (length l) = l.
Proof.
  etrans; [apply (fmap_lookup_total_seq id) | apply list_fmap_id].
Qed.

(** Candidates are only ever named by a ballot that is kept. *)
Lemma index_ballots_input bs (s : IndexState) :
  (cNames s = [] ∨ scInput s ≠ []) →
  cNames (index_ballots bs s) = [] ∨ scInput (index_ballots bs s) ≠ [].
Proof.
  revert s. induction bs as [|bNames bs IH]; intros s Hs; simpl; [done|].
  destruct bNames as [|cName bNames]; [by apply IH|].
  destruct (index_names (cName :: bNames) (c2Index s) (cNames s) [])
    as [[c2Index' cNames'] bIndices].
  apply IH. right. simpl. by destruct (scInput s).
Qed.

Lemma index_ballots_empty bs (s : IndexState) :
  Forall (λ b, b = []) bs → index_ballots bs s = s.
Proof.
  induction 1 as [|b bs -> _ IH]; simpl; done.
Qed.

Lemma names_between_app (names : list string) (order : list nat)
    (split n : nat) :
  (split ≤ n)%nat →
  names_between names order 0 split ++ names_between names order split n
  = (λ i, names !!! (order !!! i)) <$> seq 0 n.
Proof.
  intros Hle. unfold names_between. rewrite <- fmap_app.
  replace (split - 0)%nat with split by lia.
  replace n with (split + (n - split))%nat at 2 by lia.
  by rewrite seq_app.
Qed.

Lemma fmap_lookup_total_range {A B : Type} `{!Inhabited A} (f : A → B)
    (l : list A) (a len : nat) :
  (a + len ≤ length l)%nat →
  (λ i, f (l !!! i)) <$> seq a len = f <$> take len (drop a l).
Proof.
  intros Hle. apply list_eq. intros i. rewrite !list_lookup_fmap.
  destruct (decide (i < len)%nat) as [Hlt|Hge].
  - rewrite lookup_seq_lt by done. rewrite lookup_take_lt by done.
    rewrite lookup_drop. simpl.
    by rewrite (list_lookup_lookup_total_lt l (a + i)) by lia.
  - rewrite lookup_seq_ge by lia. by rewrite lookup_take_ge by lia.
Qed.

(** The two loops at the end of [RSocialChoiceIRV] split the elimination
    order at [split]. *)
Lemma names_between_split (names : list string) (order : list nat)
    (split : nat) :
  (split ≤ length order)%nat →
  names_between names order 0 split
  = (λ c, names !!! c) <$> take split order
  ∧ names_between names order split (length order)
    = (λ c, names !!! c) <$> drop split order.
Proof.
  intros Hle. unfold names_between. split.
  - rewrite Nat.sub_0_r.
    by rewrite (fmap_lookup_total_range (λ c, names !!! c) order 0 split).
  - rewrite (fmap_lookup_total_range (λ c, names !!! c) order split) by lia.
    by rewrite take_ge by (rewrite length_drop; lia).
Qed.

(** C9. [RSocialChoiceIRV] is an error when [nWinners] is below 1 or not
    below the number of candidates, and when no ballot ranks a
    candidate.  Otherwise it returns the names along the elimination
    order that [socialChoiceIRV] computes for the indexed ballots from
    the engine seeded with the seed string and advanced by
    [state_size * 100]: its first [n - nWinners] positions as the
    eliminated, in that order, and its last [nWinners] positions as the
    winners.  The order is a permutation of the candidates, and each
    candidate in it but the last has, among the candidates that come no
    earlier, the fewest ballots, a ballot counting for the first of
    these candidates that it ranks. *)
Theorem RSocialChoiceIRV_spec (bs : list (list string)) (nWinners : Z)
    (seed : string) :
  let s := index_ballots bs (mkIndexState ∅ [] []) in
  let candidates := cNames s in
  let n := Z.of_nat (length candidates) in
  let order :=
    (socialChoiceIRV (scInput s) n
       (mt_discard (state_size * 100) (mt_seed_seq seed))).1 in
  let split := Z.to_nat (n - nWinners) in
  ((nWinners < 1 ∨ n ≤ nWinners) →
   is_error (RSocialChoiceIRV bs nWinners seed) = true)
  ∧ (Forall (λ b, b = []) bs →
     is_error (RSocialChoiceIRV bs nWinners seed) = true)
  ∧ (1 ≤ nWinners < n →
     ∃ out,
       RSocialChoiceIRV bs nWinners seed = Ok out
       ∧ elimination_order out = (λ c, candidates !!! c) <$> take split order
       ∧ winners out = (λ c, candidates !!! c) <$> drop split order
       ∧ order ≡ₚ seq 0 (length candidates)
       ∧ (∀ k c c',
            order !! k = Some c → (S k < length order)%nat →
            c' ∈ drop k order →
            tally (scInput s) (drop k order) c
            ≤ tally (scInput s) (drop k order) c')
       ∧ elimination_order out ++ winners out
         = (λ c, candidates !!! c) <$> order
       ∧ elimination_order out ++ winners out ≡ₚ candidates
       ∧ Z.of_nat (length (elimination_order out)) = n - nWinners
       ∧ Z.of_nat (length (winners out)) = nWinners).
Proof.
  intros s candidates n order split. split_and!.
  - intros Hbad. unfold RSocialChoiceIRV. fold s candidates n.
    by rewrite bool_decide_eq_true_2.
  - intros Hempty. unfold RSocialChoiceIRV.
    rewrite index_ballots_empty by done. simpl.
    rewrite bool_decide_eq_true_2; [done | lia].
  - intros Hw. unfold RSocialChoiceIRV. fold s candidates n.
    rewrite bool_decide_eq_false_2 by lia.
    destruct (index_ballots_input bs (mkIndexState ∅ [] [])) as [Hc|Hin];
      [by left | | ].
    { exfalso. subst n candidates s. rewrite Hc in Hw. simpl in Hw. lia. }
    fold s in Hin.
    rewrite bool_decide_eq_false_2
      by (destruct (scInput s); [done | simpl; lia]).
    fold order split.
    assert (order ≡ₚ seq 0 (length candidates)) as Hperm.
    { subst order n. rewrite socialChoiceIRV_Permutation.
      by rewrite Nat2Z.id. }
    assert (length order = length candidates) as Hlen.
    { by rewrite Hperm, length_seq. }
    destruct (names_between_split candidates order split) as [Helim Hwin].
    { subst split n. lia. }
    rewrite Hlen in Hwin.
    eexists. split; [reflexivity|]. cbn [elimination_order winners].
    rewrite Helim, Hwin.
    split_and!.
    + done.
    + done.
    + exact Hperm.
    + intros k c c'. apply socialChoiceIRV_minimal.
    + by rewrite <- fmap_app, take_drop.
    + rewrite <- fmap_app, take_drop, Hperm.
      rewrite <- (lookup_total_seq candidates) at 2. done.
    + rewrite length_fmap, length_take. subst split n. lia.
    + rewrite length_fmap, length_drop. subst split n. lia.
Qed.

End RSocialChoiceIRVProperties.

(** ** The posterior driver *)

Section ScheduleProperties.

Implicit Types (orders results : list (list (list nat))).
Implicit Types (sched : list nat).

Lemma pushes_of_snoc i j sched :
  RDirichletTree.pushes_of i (sched ++ [j])
  = (RDirichletTree.pushes_of i sched + if decide (j = i) then 1 else 0)%nat.
Proof.
  unfold RDirichletTree.pushes_of. rewrite filter_app, length_app.
  f_equal. rewrite filter_cons. by destruct (decide (j = i)).
Qed.

Lemma run_schedule_snoc orders results sched i :
  RDirichletTree.run_schedule orders results (sched ++ [i])
  = RDirichletTree.push_step orders
      (RDirichletTree.run_schedule orders results sched) i.
Proof. unfold RDirichletTree.run_schedule. by rewrite foldl_app. Qed.

Lemma push_step_length orders results i :
  length (RDirichletTree.push_step orders results i) = length results.
Proof.
  unfold RDirichletTree.push_step.
  destruct ((orders !!! i) !! length (results !!! i));
    [by rewrite length_insert | done].
Qed.

Lemma run_schedule_length orders results sched :
  length (RDirichletTree.run_schedule orders results sched) = length results.
Proof.
  induction sched as [|i sched IH] using rev_ind; [done|].
  by rewrite run_schedule_snoc, push_step_length.
Qed.

(** Whatever the interleaving, slot [i] of the store holds the first
    elimination orders of job [i], as many as the job has pushed. *)
Lemma run_schedule_lookup orders (m : nat) sched (i : nat) :
  (i < m)%nat →
  RDirichletTree.run_schedule orders (replicate m []) sched !! i
  = Some (take (RDirichletTree.pushes_of i sched) (orders !!! i)).
Proof.
  intros Hi. induction sched as [|j sched IH] using rev_ind.
  { simpl. rewrite lookup_replicate_2 by done. by rewrite take_0. }
  rewrite run_schedule_snoc, pushes_of_snoc.
  set (r := RDirichletTree.run_schedule orders (replicate m []) sched) in *.
  assert (length r = m) as Hlen.
  { subst r. by rewrite run_schedule_length, length_replicate. }
  unfold RDirichletTree.push_step.
  destruct (decide (j = i)) as [->|Hne].
  - rewrite (list_lookup_total_correct r i _ IH).
    rewrite length_take.
    destruct (decide (RDirichletTree.pushes_of i sched
                      < length (orders !!! i))%nat) as [Hlt|Hge].
    + rewrite Nat.min_l by lia.
      destruct (lookup_lt_is_Some_2 (orders !!! i)
                  (RDirichletTree.pushes_of i sched) Hlt) as [order Ho].
      rewrite Ho, list_lookup_insert_eq by lia.
      f_equal. rewrite Nat.add_1_r. by erewrite take_S_r.
    + rewrite Nat.min_r by lia.
      rewrite (proj2 (lookup_ge_None (orders !!! i) _)) by lia.
      rewrite IH. f_equal. by rewrite !take_ge by lia.
  - rewrite Nat.add_0_r.
    destruct ((orders !!! j) !! length (r !!! j));
      [by rewrite list_lookup_insert_ne | done].
Qed.

(** The store at the end of a run is a function of the number of pushes
    each job has made. *)
Lemma run_schedule_determined orders (m : nat) sched1 sched2 :
  (∀ i, RDirichletTree.pushes_of i sched1 = RDirichletTree.pushes_of i sched2) →
  RDirichletTree.run_schedule orders (replicate m []) sched1
  = RDirichletTree.run_schedule orders (replicate m []) sched2.
Proof.
  intros Heq. apply list_eq. intros i.
  destruct (decide (i < m)%nat) as [Hlt|Hge].
  - by rewrite !run_schedule_lookup, Heq.
  - rewrite !(proj2 (lookup_ge_None _ i)); [done | |];
      rewrite run_schedule_length, length_replicate; lia.
Qed.

Lemma pushes_of_absent i sched :
  i ∉ sched → RDirichletTree.pushes_of i sched = 0%nat.
Proof.
  intros Hi. unfold RDirichletTree.pushes_of.
  induction sched as [|j sched IH]; [done|].
  apply not_elem_of_cons in Hi as [Hne Hi].
  rewrite filter_cons_False by done. by apply IH.
Qed.

(** In a schedule every job makes exactly the pushes it has to make. *)
Lemma is_schedule_pushes hw orders sched i :
  RDirichletTree.is_schedule hw orders sched = true →
  RDirichletTree.pushes_of i sched
  = if decide (i < length orders)%nat then length (orders !!! i) else 0%nat.
Proof.
  unfold RDirichletTree.is_schedule.
  rewrite !andb_true_iff, !forallb_forall.
  intros [[Hcount Hrange] _].
  destruct (decide (i < length orders)%nat) as [Hlt|Hge].
  - specialize (Hcount i). rewrite bool_decide_eq_true in Hcount.
    apply Hcount, in_seq. lia.
  - apply pushes_of_absent. intros Hin.
    apply list_elem_of_In, Hrange, bool_decide_eq_true in Hin. lia.
Qed.

Lemma pushes_of_replicate i j (n : nat) :
  RDirichletTree.pushes_of i (replicate n j)
  = if decide (j = i) then n else 0%nat.
Proof.
  unfold RDirichletTree.pushes_of.
  induction n as [|n IH]; simpl; [by destruct (decide (j = i))|].
  rewrite filter_cons. destruct (decide (j = i)); simpl; by rewrite IH.
Qed.

Lemma pushes_of_sequential_from (len : nat → nat) i (k n : nat) :
  RDirichletTree.pushes_of i
    (mjoin ((λ j, replicate (len j) j) <$> seq k n))
  = if decide (k ≤ i < k + n)%nat then len i else 0%nat.
Proof.
  revert k. induction n as [|n IH]; intros k; simpl.
  { by destruct (decide _); [lia|]. }
  unfold RDirichletTree.pushes_of in *.
  rewrite filter_app, length_app, IH.
  pose proof (pushes_of_replicate i k (len k)) as Hr.
  unfold RDirichletTree.pushes_of in Hr. rewrite Hr.
  repeat case_decide; subst; lia.
Qed.

Lemma pushes_of_sequential orders i :
  RDirichletTree.pushes_of i (RDirichletTree.sequential_schedule orders)
  = if decide (i < length orders)%nat then length (orders !!! i) else 0%nat.
Proof.
  unfold RDirichletTree.sequential_schedule.
  rewrite (pushes_of_sequential_from (λ j, length (orders !!! j))).
  repeat case_decide; lia.
Qed.

(** After a complete run every slot holds all the orders of its job. *)
Lemma run_sequential orders :
  RDirichletTree.run_schedule orders (replicate (length orders) [])
    (RDirichletTree.sequential_schedule orders)
  = orders.
Proof.
  apply list_eq. intros i.
  destruct (decide (i < length orders)%nat) as [Hlt|Hge].
  - rewrite run_schedule_lookup by done.
    rewrite pushes_of_sequential, decide_True by done.
    rewrite take_ge by done.
    symmetry. by apply list_lookup_lookup_total_lt.
  - rewrite !(proj2 (lookup_ge_None _ i)); [done | lia |].
    rewrite run_schedule_length, length_replicate. lia.
Qed.

End ScheduleProperties.

Section DriverProperties.
Import IRV.
Context {Node E : Type}.
Context `{!Mt19937 E, !Distributions E,
          !NodeType Node IRVBallot IRVParameters E Q}.
Implicit Types (st : RDirichletTree.t Node E).

(** C4. The output of the posterior driver, and the state it leaves, do
    not depend on how the pool interleaves the jobs nor on its width:
    any two admissible schedules, for pools of any two widths, give the
    same result, which is the result of running the jobs one after the
    other; and the output is the same again from a state that differs in
    nothing but the engine the tree had before the call. *)
Theorem samplePosterior_schedule_independent st
    (nElections nBallots nWinners nBatches : Z) (seed : string)
    (hw1 hw2 : nat) (sched1 sched2 : list nat) (e : E) :
  let orders :=
    RDirichletTree.posterior_jobs st nElections nBallots nBatches seed in
  RDirichletTree.is_schedule hw1 orders sched1 = true →
  RDirichletTree.is_schedule hw2 orders sched2 = true →
  RDirichletTree.samplePosterior_with sched1 st nElections nBallots nWinners
                                      nBatches seed
  = RDirichletTree.samplePosterior_with sched2 st nElections nBallots
                                        nWinners nBatches seed
  ∧ RDirichletTree.samplePosterior_with sched1 st nElections nBallots
                                        nWinners nBatches seed
    = RDirichletTree.samplePosterior st nElections nBallots nWinners
                                     nBatches seed
  ∧ (RDirichletTree.samplePosterior_with sched1
       (RDirichletTree.with_engine e st) nElections nBallots nWinners
       nBatches seed).2
    = (RDirichletTree.samplePosterior_with sched2 st nElections nBallots
                                           nWinners nBatches seed).2.
Proof.
  intros orders Hs1 Hs2.
  assert (∀ sched,
            (RDirichletTree.samplePosterior_with sched
               (RDirichletTree.with_engine e st) nElections nBallots nWinners
               nBatches seed).2
            = (RDirichletTree.samplePosterior_with sched st nElections
                 nBallots nWinners nBatches seed).2) as Hengine.
  { intros sched. unfold RDirichletTree.samplePosterior_with.
    rewrite posterior_jobs_with_engine, seeded_with_engine. simpl.
    case_bool_decide; [done|].
    by destruct (RDirichletTree.seeded st nBatches seed). }
  rewrite Hengine. clear Hengine.
  cut (RDirichletTree.samplePosterior_with sched1 st nElections nBallots
         nWinners nBatches seed
       = RDirichletTree.samplePosterior_with sched2 st nElections nBallots
           nWinners nBatches seed
       ∧ RDirichletTree.samplePosterior_with sched1 st nElections nBallots
           nWinners nBatches seed
         = RDirichletTree.samplePosterior st nElections nBallots nWinners
             nBatches seed).
  { intros [H12 H1]. split_and!; [done | done | by rewrite H12]. }
  unfold RDirichletTree.samplePosterior, RDirichletTree.samplePosterior_with.
  fold orders. case_bool_decide; [done|].
  destruct (RDirichletTree.seeded st nBatches seed) as [tr2 seeds].
  rewrite (run_schedule_determined orders _ sched1
             (RDirichletTree.sequential_schedule orders)).
  - rewrite (run_schedule_determined orders _ sched2
               (RDirichletTree.sequential_schedule orders)); [done|].
    intros i.
    by rewrite (is_schedule_pushes hw2 orders sched2), pushes_of_sequential.
  - intros i.
    by rewrite (is_schedule_pushes hw1 orders sched1), pushes_of_sequential.
Qed.

Lemma score_elections_spec (elections : list (list IRVBallot))
    (nCandidates : Z) (e : E) :
  length (RDirichletTree.score_elections elections nCandidates e)
  = length elections
  ∧ Forall (λ order, order ≡ₚ seq 0 (Z.to_nat nCandidates))
           (RDirichletTree.score_elections elections nCandidates e).
Proof.
  revert e. induction elections as [|el elections IH]; intros e; simpl.
  { split; [done | constructor]. }
  pose proof (socialChoiceIRV_Permutation (with_count <$> el) nCandidates e)
    as Hperm.
  destruct (socialChoiceIRV (with_count <$> el) nCandidates e) as [order e'].
  destruct (IH e') as [Hlen Hall]. simpl. split; [by rewrite Hlen|].
  by constructor.
Qed.

(** A job scores as many elections as there are ballots in one. *)
Lemma getBatchResult_spec
    (tr : DirichletTree.t Node IRVBallot IRVParameters E) (seeds : list Z)
    (nBallots nCandidates : Z) (i : nat) (batchSize : Z) :
  let orders :=
    RDirichletTree.getBatchResult tr seeds nBallots nCandidates i batchSize in
  length orders = Z.to_nat (int_of nBallots)
  ∧ Forall (λ order, order ≡ₚ seq 0 (Z.to_nat nCandidates)) orders.
Proof.
  unfold RDirichletTree.getBatchResult, DirichletTree.posteriorSets.
  set (e := mt_discard (state_size * 100) (mt_seed (seeds !!! i))).
  pose proof (posteriorSets_loop_spec (Z.to_nat (int_of nBallots))
                (int_of nBallots)
                (int_of (Z.of_nat (length (DirichletTree.observed tr))))
                tr (Some e) []) as (Hlen & _ & _).
  destruct (DirichletTree.posteriorSets_loop _ _ _ tr (Some e) [])
    as [[elections tr'] e1].
  simpl in Hlen.
  destruct (score_elections_spec elections nCandidates (default e e1))
    as [Hl Hall].
  simpl. split; [by rewrite Hl | done].
Qed.

Lemma job_orders_spec
    (tr : DirichletTree.t Node IRVBallot IRVParameters E) (seeds : list Z)
    (nBallots nCandidates : Z) (nBatches : nat)
    (batchSize batchRemainder : Z) (i : nat) :
  let orders :=
    RDirichletTree.job_orders tr seeds nBallots nCandidates nBatches
                              batchSize batchRemainder i in
  length orders
  = (if bool_decide ((i < nBatches)%nat ∨ i = nBatches ∧ 0 < batchRemainder)
     then Z.to_nat (int_of nBallots) else 0%nat)
  ∧ Forall (λ order, order ≡ₚ seq 0 (Z.to_nat nCandidates)) orders.
Proof.
  unfold RDirichletTree.job_orders.
  repeat case_bool_decide; try lia; try apply getBatchResult_spec;
    try naive_solver lia.
  split; [done | constructor].
Qed.

Lemma Zsum_insert_succ (out : list Z) (c : nat) :
  (c < length out)%nat → Zsum (<[c := out !!! c + 1]> out) = Zsum out + 1.
Proof.
  revert c. induction out as [|x out IH]; intros c Hc; simpl in *; [lia|].
  destruct c as [|c]; simpl; [unfold Zsum; simpl; lia|].
  unfold Zsum in *. simpl. rewrite IH by lia. lia.
Qed.

Lemma Zsum_replicate_zero (n : nat) : Zsum (replicate n 0) = 0.
Proof.
  unfold Zsum. induction n as [|n IH]; [done|].
  cbn [replicate foldr]. by rewrite IH.
Qed.

Lemma count_winners_steps (order : list nat) (idxs : list nat)
    (out : list Z) :
  Forall (λ i, order !!! i < length out)%nat idxs →
  let out' := foldl (λ out i, let c := order !!! i in
                              <[c := out !!! c + 1]> out) out idxs in
  length out' = length out ∧ Zsum out' = Zsum out + Z.of_nat (length idxs).
Proof.
  revert out. induction idxs as [|i idxs IH]; intros out Hall; simpl.
  { split; [done | lia]. }
  apply Forall_cons in Hall as [Hi Hall].
  destruct (IH (<[order !!! i := out !!! (order !!! i) + 1]> out)) as [Hl Hs].
  { by rewrite length_insert. }
  simpl in Hl, Hs. rewrite Hl, Hs, length_insert, Zsum_insert_succ by done.
  split; [done | lia].
Qed.

Lemma Permutation_seq_lookup_total (order : list nat) (n i : nat) :
  order ≡ₚ seq 0 n → (i < n)%nat → (order !!! i < n)%nat.
Proof.
  intros Hperm Hi.
  assert (∀ c, c ∈ order → (c < n)%nat) as Hbound.
  { intros c Hc. rewrite Hperm in Hc. apply elem_of_seq in Hc. lia. }
  apply Hbound, list_elem_of_lookup_total_2. by rewrite Hperm, length_seq.
Qed.

(** Each elimination order adds [nWinners] to the sum of the counts. *)
Lemma count_winners_spec (nCandidates nWinners : Z) (out : list Z)
    (order : list nat) :
  1 ≤ nWinners < nCandidates → nCandidates < 2 ^ 64 →
  length out = Z.to_nat nCandidates →
  order ≡ₚ seq 0 (Z.to_nat nCandidates) →
  let out' := RDirichletTree.count_winners nCandidates nWinners out order in
  length out' = length out ∧ Zsum out' = Zsum out + nWinners.
Proof.
  intros Hw Hn Hlen Hperm. unfold RDirichletTree.count_winners, size_t_of.
  rewrite Z.mod_small by lia.
  set (first := Z.to_nat (nCandidates - nWinners)).
  destruct (count_winners_steps order
              (seq first (Z.to_nat nCandidates - first)) out) as [Hl Hs].
  { apply Forall_forall. intros i Hi. apply elem_of_seq in Hi.
    rewrite Hlen. apply Permutation_seq_lookup_total; [done | lia]. }
  simpl in Hl, Hs. rewrite Hl, Hs, length_seq. split; [done | lia].
Qed.

Lemma aggregate_spec (nCandidates nWinners : Z)
    (results : list (list (list nat))) :
  1 ≤ nWinners < nCandidates → nCandidates < 2 ^ 64 →
  Forall (Forall (λ order, order ≡ₚ seq 0 (Z.to_nat nCandidates))) results →
  let out := RDirichletTree.aggregate nCandidates nWinners results in
  length out = Z.to_nat nCandidates
  ∧ Zsum out = nWinners * Z.of_nat (length (mjoin results)).
Proof.
  intros Hw Hn Hall. unfold RDirichletTree.aggregate.
  assert (∀ batch out,
            Forall (λ order, order ≡ₚ seq 0 (Z.to_nat nCandidates)) batch →
            length out = Z.to_nat nCandidates →
            let out' := foldl (RDirichletTree.count_winners nCandidates
                                 nWinners) out batch in
            length out' = Z.to_nat nCandidates
            ∧ Zsum out' = Zsum out + nWinners * Z.of_nat (length batch))
    as Hbatch.
  { intros batch. induction batch as [|order batch IH]; intros out Hb Hl; simpl.
    { split; [done | lia]. }
    apply Forall_cons in Hb as [Ho Hb].
    destruct (count_winners_spec nCandidates nWinners out order) as [Hl' Hs'];
      [done..|].
    simpl in Hl', Hs'.
    destruct (IH (RDirichletTree.count_winners nCandidates nWinners out order))
      as [Hl'' Hs'']; [done | lia |].
    simpl in Hl'', Hs''. rewrite Hl'', Hs'', Hs'. split; [done | lia]. }
  assert (∀ out, length out = Z.to_nat nCandidates →
            let out' := foldl (foldl (RDirichletTree.count_winners
                                        nCandidates nWinners)) out results in
            length out' = Z.to_nat nCandidates
            ∧ Zsum out' = Zsum out
                          + nWinners * Z.of_nat (length (mjoin results)))
    as Hres.
  { induction Hall as [|batch results Hb _ IH]; intros out Hl; simpl.
    { split; [done | lia]. }
    destruct (Hbatch batch out Hb Hl) as [Hl' Hs']. simpl in Hl', Hs'.
    destruct (IH _ Hl') as [Hl'' Hs'']. simpl in Hl'', Hs''.
    rewrite Hl'', Hs'', Hs', length_app. split; [done | lia]. }
  destruct (Hres (replicate (Z.to_nat nCandidates) 0)) as [Hl Hs].
  { by rewrite length_replicate. }
  simpl in Hl, Hs. rewrite Hl, Hs. split; [done|].
  rewrite Zsum_replicate_zero. lia.
Qed.

Lemma Qsum_normalise (nElections : Z) (out : list Z) :
  (Qsum (RDirichletTree.normalise nElections out)
   == inject_Z (Zsum out) / inject_Z nElections)%Q.
Proof.
  unfold RDirichletTree.normalise, Qsum, Zsum.
  induction out as [|c out IH]; simpl.
  { unfold Qdiv. ring. }
  rewrite IH, inject_Z_plus. unfold Qdiv. ring.
Qed.

End DriverProperties.

Section DriverSum.
Import IRV.
Context {Node E : Type}.
Context `{!Mt19937 E, !Distributions E,
          !NodeType Node IRVBallot IRVParameters E Q}.
Implicit Types (st : RDirichletTree.t Node E).

Lemma length_join_constant {A : Type} (f : nat → list A) (c : nat)
    (l : list nat) :
  Forall (λ i, length (f i) = c) l →
  length (mjoin (f <$> l)) = (length l * c)%nat.
Proof.
  induction 1 as [|i l Hi _ IH]; [done|].
  rewrite fmap_cons.
  change (mjoin (f i :: (f <$> l))) with (f i ++ mjoin (f <$> l)).
  rewrite length_app, Hi, IH. simpl. lia.
Qed.

(** The jobs of a call: one per batch and one for the remainder, every
    one of them scoring [nBallots] elections when it runs at all. *)
Lemma posterior_jobs_spec st (nElections nBallots nBatches : Z)
    (seed : string) :
  0 ≤ nBatches →
  let orders :=
    RDirichletTree.posterior_jobs st nElections nBallots nBatches seed in
  let nCandidates := getNCandidates (RDirichletTree.parameters_of st) in
  let jobs :=
    nBatches
    + (if bool_decide
            (0 < (RDirichletTree.batch_sizes nElections nBatches).2)
       then 1 else 0) in
  length orders = S (Z.to_nat nBatches)
  ∧ Forall (Forall (λ order, order ≡ₚ seq 0 (Z.to_nat nCandidates))) orders
  ∧ Z.of_nat (length (mjoin orders))
    = Z.of_nat (Z.to_nat (int_of nBallots)) * jobs.
Proof.
  intros Hb. unfold RDirichletTree.posterior_jobs, RDirichletTree.seeded.
  destruct (RDirichletTree.draw_seeds _ _ _) as [seeds e1].
  destruct (RDirichletTree.batch_sizes nElections nBatches)
    as [batchSize batchRemainder].
  cbn [DirichletTree.parameters DirichletTree.set_engine
       DirichletTree.setSeed snd].
  fold (RDirichletTree.parameters_of st).
  set (tr2 := DirichletTree.set_engine _ _).
  set (job := RDirichletTree.job_orders tr2 seeds nBallots _ _ _ _).
  split_and!.
  - by rewrite length_fmap, length_seq.
  - apply Forall_fmap, Forall_forall. intros i _. apply job_orders_spec.
  - rewrite seq_S, fmap_app, join_app, length_app.
    rewrite (length_join_constant job (Z.to_nat (int_of nBallots))).
    + rewrite length_seq. simpl. rewrite app_nil_r.
      subst job. rewrite (proj1 (job_orders_spec _ _ _ _ _ _ _ _)).
      repeat case_bool_decide; try lia; naive_solver lia.
    + apply Forall_forall. intros i Hi. apply elem_of_seq in Hi.
      subst job. rewrite (proj1 (job_orders_spec _ _ _ _ _ _ _ _)).
      rewrite bool_decide_eq_true_2; [done | lia].
Qed.

(** C3. The vector returned by the posterior driver has one entry per
    candidate, and its entries sum to [nWinners] times the number of
    elections scored over [nElections].  The number of elections scored
    is [nBallots] for every job that runs, since each job scores every
    set that [posteriorSets] returns: the sum is [nWinners] only when
    [nBallots] times the number of jobs happens to equal [nElections]. *)
Theorem samplePosterior_sum st (nElections nBallots nWinners nBatches : Z)
    (seed : string) :
  let nCandidates := getNCandidates (RDirichletTree.parameters_of st) in
  let jobs :=
    nBatches
    + (if bool_decide
            (0 < (RDirichletTree.batch_sizes nElections nBatches).2)
       then 1 else 0) in
  1 ≤ nElections →
  RDirichletTree.nObserved st ≤ nBallots < 2 ^ 31 →
  0 ≤ nBallots →
  1 ≤ nWinners < nCandidates → nCandidates < 2 ^ 32 →
  1 ≤ nBatches < 2 ^ 32 - 1 →
  ∃ st' out,
    RDirichletTree.samplePosterior st nElections nBallots nWinners nBatches
                                   seed
    = (st', Ok out)
    ∧ length out = Z.to_nat nCandidates
    ∧ (Qsum out
       == inject_Z (nWinners * (nBallots * jobs)) / inject_Z nElections)%Q.
Proof.
  intros nCandidates jobs HE HB HB0 HW HN Hbatches.
  destruct (posterior_jobs_spec st nElections nBallots nBatches seed)
    as (Hlen & Hvalid & Htotal); [lia|].
  fold nCandidates in Hvalid. fold jobs in Htotal.
  unfold RDirichletTree.samplePosterior, RDirichletTree.samplePosterior_with.
  rewrite bool_decide_eq_false_2 by lia.
  set (orders := RDirichletTree.posterior_jobs st nElections nBallots
                   nBatches seed) in *.
  assert (Z.to_nat (unsigned_of (nBatches + 1)) = length orders) as ->.
  { unfold unsigned_of. rewrite Z.mod_small by lia. lia. }
  rewrite run_sequential.
  unfold RDirichletTree.seeded.
  destruct (RDirichletTree.draw_seeds _ _ _) as [seeds e1].
  cbn [DirichletTree.parameters DirichletTree.set_engine
       DirichletTree.setSeed].
  fold (RDirichletTree.parameters_of st). fold nCandidates.
  destruct (aggregate_spec nCandidates nWinners orders) as [Hl Hs];
    [lia | lia | done |].
  simpl in Hl, Hs.
  eexists _, _. split; [reflexivity|]. split.
  - unfold RDirichletTree.normalise. by rewrite length_fmap.
  - rewrite Qsum_normalise, Hs, Htotal.
    assert (int_of nBallots = nBallots) as ->.
    { unfold int_of. rewrite Z.mod_small by lia. lia. }
    by rewrite Z2Nat.id by lia.
Qed.

End DriverSum.

(** ** IRV nodes *)

Section IRVNodeProperties.
Import IRV.

(** On the nodes, two updates with count 1 are one update with count 2. *)
Lemma update_from_twice (rest : list nat) (node : IRVNode) :
  update_from rest 1 (update_from rest 1 node) = update_from rest 2 node.
Proof.
  revert node. induction rest as [|b rest IH]; intros node; simpl.
  - f_equal. lia.
  - unfold count_of, child_of. simpl.
    rewrite !lookup_insert_eq, !insert_insert_eq. simpl.
    rewrite IH. do 2 f_equal. lia.
Qed.

Lemma IRVNode_update_twice (p : IRVParameters) (node : IRVNode)
    (o : IRVBallot) (path : list nat) :
  IRVNode_update p (IRVNode_update p node o path 1) o path 1
  = IRVNode_update p node o path 2.
Proof.
  unfold IRVNode_update. destruct (preferences o); [done|].
  apply update_from_twice.
Qed.

End IRVNodeProperties.

(** * Further properties of the interfaces *)

(** ** Candidate names and indices *)

Section CandidateIndex.
Import IRV.

Lemma index_candidates_from (cs : list string) (m : gmap string nat)
    (k : nat) (name : string) (i : nat) :
  ((foldl (λ (acc : gmap string nat * nat) cName,
            (<[cName := acc.2]> acc.1, S acc.2)) (m, k) cs).1) !! name
  = Some i
  ↔ (∃ j, i = (k + j)%nat ∧ cs !! j = Some name ∧ name ∉ drop (S j) cs)
    ∨ ((name ∉ cs) ∧ (m !! name = Some i)).
Proof.
  revert m k. induction cs as [|c cs IH]; intros m k; simpl.
  { split.
    - intros Hm. right. split; [apply not_elem_of_nil | done].
    - intros [(j & _ & Hj & _)|[_ Hm]]; [done | done]. }
  rewrite IH. clear IH. split.
  - intros [(j & -> & Hj & Hlast)|[Hnot Hm]].
    + left. exists (S j). split_and!; [lia | done | done].
    + destruct (decide (c = name)) as [->|Hne].
      * rewrite lookup_insert_eq in Hm. injection Hm as <-.
        left. exists 0%nat. split_and!; [lia | done | by rewrite drop_0].
      * rewrite lookup_insert_ne in Hm by done.
        right. split; [|done]. by apply not_elem_of_cons.
  - intros [(j & -> & Hj & Hlast)|[Hnot Hm]].
    + destruct j as [|j]; simpl in *.
      * injection Hj as ->. rewrite drop_0 in Hlast.
        right. split; [done|]. rewrite lookup_insert_eq. f_equal. lia.
      * left. exists j. split_and!; [lia | done | done].
    + apply not_elem_of_cons in Hnot as [Hne Hnot].
      right. split; [done|]. by rewrite lookup_insert_ne.
Qed.

Lemma index_candidates_iff (candidates : list string) (name : string)
    (i : nat) :
  RDirichletTree.index_candidates candidates !! name = Some i
  ↔ candidates !! i = Some name ∧ name ∉ drop (S i) candidates.
Proof.
  unfold RDirichletTree.index_candidates.
  rewrite index_candidates_from. split.
  - intros [(j & -> & Hj & Hlast)|[_ Hm]]; [done | done].
  - intros [Hi Hlast]. left. by exists i.
Qed.

Lemma index_candidates_known (candidates : list string) (name : string) :
  name ∈ candidates →
  ∃ i, RDirichletTree.index_candidates candidates !! name = Some i
       ∧ candidates !! i = Some name.
Proof.
  intros Hin.
  destruct (RDirichletTree.index_candidates candidates !! name) as [i|] eqn:Hi.
  { exists i. split; [done|]. by apply index_candidates_iff in Hi as [? _]. }
  exfalso. induction candidates as [|c cs IH] using rev_ind.
  { by apply elem_of_nil in Hin. }
  destruct (decide (c = name)) as [->|Hne].
  - assert (RDirichletTree.index_candidates (cs ++ [name]) !! name
            = Some (length cs)) as Hl; [|congruence].
    apply index_candidates_iff. split.
    + by rewrite lookup_app_r, Nat.sub_diag by lia.
    + rewrite drop_ge by (rewrite length_app; simpl; lia).
      apply not_elem_of_nil.
  - apply elem_of_app in Hin as [Hin|Hin];
      [|apply list_elem_of_singleton in Hin; congruence].
    apply IH; [done|].
    destruct (RDirichletTree.index_candidates cs !! name) as [j|] eqn:Hj;
      [|done].
    apply index_candidates_iff in Hj as [Hj Hlast].
    assert (RDirichletTree.index_candidates (cs ++ [c]) !! name = Some j)
      as Hl; [|congruence].
    apply index_candidates_iff. split.
    + by apply lookup_app_l_Some.
    + pose proof (lookup_lt_Some _ _ _ Hj).
      rewrite drop_app_le by lia.
      apply not_elem_of_app. split; [done|].
      by apply not_elem_of_cons; split; [|apply not_elem_of_nil].
Qed.

(** X1. The constructor maps a name to the last position at which it occurs
    in the vector of candidates, and to nothing when it does not occur:
    every candidate name is a key, its index is a position of the vector
    that holds the name, and of a repeated name only the last position
    can be reached. *)
Theorem index_candidates_lookup (candidates : list string) (name : string)
    (i : nat) :
  (RDirichletTree.index_candidates candidates !! name = Some i
   ↔ candidates !! i = Some name ∧ name ∉ drop (S i) candidates)
  ∧ (is_Some (RDirichletTree.index_candidates candidates !! name)
     ↔ name ∈ candidates).
Proof.
  split; [apply index_candidates_iff|]. split.
  - intros [j Hj]. apply index_candidates_iff in Hj as [Hj _].
    by eapply list_elem_of_lookup_2.
  - intros Hin. destruct (index_candidates_known candidates name Hin)
      as (j & Hj & _). by eexists.
Qed.

End CandidateIndex.

(** ** Parsing and observing ballots *)

Section ParseProperties.
Import IRV.
Context {Node E : Type}.
Context `{!Mt19937 E, !Distributions E,
          !NodeType Node IRVBallot IRVParameters E Q}.
Implicit Types (st : RDirichletTree.t Node E).
Implicit Types (cm : gmap string nat).

Lemma parseBallot_known cm namePrefs indexPrefs :
  Forall (λ name, is_Some (cm !! name)) namePrefs →
  RDirichletTree.parseBallot cm namePrefs indexPrefs
  = Ok (indexPrefs ++ ((λ name, cm !!! name) <$> namePrefs)).
Proof.
  intros Hall. revert indexPrefs.
  induction Hall as [|cName namePrefs [cIndex Hc] _ IH]; intros indexPrefs;
    simpl.
  { by rewrite app_nil_r. }
  rewrite Hc, IH, <- app_assoc. simpl.
  by rewrite (lookup_total_correct cm cName cIndex).
Qed.

Lemma parseBallot_Ok cm namePrefs indexPrefs l :
  RDirichletTree.parseBallot cm namePrefs indexPrefs = Ok l →
  Forall (λ name, is_Some (cm !! name)) namePrefs.
Proof.
  revert indexPrefs. induction namePrefs as [|cName namePrefs IH];
    intros indexPrefs Hp; simpl in *; [constructor|].
  destruct (cm !! cName) as [cIndex|] eqn:Hc; [|done].
  constructor; [by eexists | by eapply IH].
Qed.

Lemma parseBallotList_loop_known cm bs out :
  Forall (Forall (λ name, is_Some (cm !! name))) bs →
  RDirichletTree.parseBallotList_loop cm bs out
  = Ok (out ++ (indexed cm <$> bs)).
Proof.
  intros Hall. revert out.
  induction Hall as [|b bs Hb _ IH]; intros out; simpl.
  { by rewrite app_nil_r. }
  rewrite (parseBallot_known cm b []) by done.
  rewrite IH, <- app_assoc. done.
Qed.

Lemma parseBallotList_loop_Ok cm bs out bcs :
  RDirichletTree.parseBallotList_loop cm bs out = Ok bcs →
  Forall (Forall (λ name, is_Some (cm !! name))) bs.
Proof.
  revert out. induction bs as [|b bs IH]; intros out Hp; simpl in *;
    [constructor|].
  destruct (RDirichletTree.parseBallot cm b []) as [l|msg] eqn:Hb; [|done].
  constructor; [by eapply parseBallot_Ok | by eapply IH].
Qed.

Lemma parseBallotList_indexed st (bs : list (list string))
    (bcs : list IRVBallotCount) :
  RDirichletTree.parseBallotList st bs = Ok bcs →
  Forall (Forall (λ name, is_Some (RDirichletTree.candidateMap st !! name)))
         bs
  ∧ bcs = indexed (RDirichletTree.candidateMap st) <$> bs.
Proof.
  unfold RDirichletTree.parseBallotList. intros Hp.
  pose proof (parseBallotList_loop_Ok _ _ _ _ Hp) as Hall.
  rewrite (parseBallotList_loop_known _ _ [] Hall) in Hp.
  by injection Hp as <-.
Qed.

(** X2. [parseBallotList] succeeds exactly when every name of every ballot
    is a key of the map, and then it returns the ballots in order, each
    as the indices of its names and with count 1. *)
Theorem parseBallotList_known st (bs : list (list string)) :
  (Forall (Forall (λ name, is_Some (RDirichletTree.candidateMap st !! name)))
          bs
   ↔ ∃ bcs, RDirichletTree.parseBallotList st bs = Ok bcs)
  ∧ ∀ bcs, RDirichletTree.parseBallotList st bs = Ok bcs →
           bcs = indexed (RDirichletTree.candidateMap st) <$> bs.
Proof.
  unfold RDirichletTree.parseBallotList. split; [split|].
  - intros Hall. eexists. by apply parseBallotList_loop_known.
  - intros [bcs Hp]. by eapply parseBallotList_loop_Ok.
  - intros bcs Hp.
    pose proof (parseBallotList_loop_Ok _ _ _ _ Hp) as Hall.
    rewrite (parseBallotList_loop_known _ _ [] Hall) in Hp.
    by injection Hp as <-.
Qed.

(** X3. On a tree made for a vector of candidates, a ballot of candidate
    names is parsed to indices from which [candidateVector] gives the
    names back. *)
Theorem parse_names_round_trip (candidates : list string)
    (minDepth_ maxDepth_ : Z) (a0_ : Q) (vd_ : bool) (seed_ : string)
    (bs : list (list string)) :
  let st := RDirichletTree.make (Node := Node) (E := E) candidates minDepth_
              maxDepth_ a0_ vd_ seed_ in
  Forall (Forall (λ name, name ∈ candidates)) bs →
  ∃ bcs, RDirichletTree.parseBallotList st bs = Ok bcs
         ∧ (λ bc : IRVBallotCount, RDirichletTree.names_of st bc.1) <$> bcs
           = bs.
Proof.
  intros st Hall.
  assert (Forall (Forall (λ name,
            is_Some (RDirichletTree.candidateMap st !! name))) bs) as Hknown.
  { eapply Forall_impl; [exact Hall|]. intros b Hb.
    eapply Forall_impl; [exact Hb|]. intros name Hname. simpl in *.
    destruct (index_candidates_known candidates name Hname) as (i & Hi & _).
    by eexists. }
  exists (indexed (RDirichletTree.candidateMap st) <$> bs). split.
  { unfold RDirichletTree.parseBallotList.
    by rewrite (parseBallotList_loop_known _ _ [] Hknown). }
  rewrite <- list_fmap_compose.
  rewrite <- (list_fmap_id bs) at 2.
  apply Forall_fmap_ext. eapply Forall_impl; [exact Hall|].
  intros b Hb. unfold compose, RDirichletTree.names_of, indexed. simpl.
  rewrite <- list_fmap_compose.
  rewrite <- (list_fmap_id b) at 2.
  apply Forall_fmap_ext. eapply Forall_impl; [exact Hb|].
  intros name Hname. simpl in *.
  destruct (index_candidates_known candidates name Hname) as (i & Hi & Hc).
  rewrite (lookup_total_correct _ _ _ Hi).
  by apply list_lookup_total_correct.
Qed.

End ParseProperties.

Section UpdateProperties.
Import IRV.
Context {Node E : Type}.
Context `{!Mt19937 E, !Distributions E,
          !NodeType Node IRVBallot IRVParameters E Q}.
Implicit Types (st : RDirichletTree.t Node E).

Lemma size_t_of_add_l (a b : Z) :
  size_t_of (size_t_of a + b) = size_t_of (a + b).
Proof. unfold size_t_of. by rewrite Zplus_mod_idemp_l. Qed.

Lemma Zsum_indexed (cm : gmap string nat) (bs : list (list string)) :
  Zsum ((indexed cm <$> bs).*2) = Z.of_nat (length bs).
Proof.
  unfold Zsum. induction bs as [|b bs IH]; [done|].
  cbn [fmap list_fmap foldr length]. simpl in *. rewrite IH. lia.
Qed.

(** What the loop of [update] does to a state, ballot after ballot. *)
Lemma update_steps (minDepth : Z) (bcs : list IRVBallotCount) st
    (ws : list string) :
  let r := foldl (RDirichletTree.update_step minDepth) (st, ws) bcs in
  DirichletTree.observed (RDirichletTree.tree r.1)
  = DirichletTree.observed (RDirichletTree.tree st) ++ bcs.*1
  ∧ DirichletTree.root (RDirichletTree.tree r.1)
    = foldl (λ node (bc : IRVBallotCount),
               node_update (RDirichletTree.parameters_of st) node bc.1
                 (defaultPath (RDirichletTree.parameters_of st)) bc.2)
            (DirichletTree.root (RDirichletTree.tree st)) bcs
  ∧ RDirichletTree.parameters_of r.1 = RDirichletTree.parameters_of st
  ∧ DirichletTree.engine (RDirichletTree.tree r.1)
    = DirichletTree.engine (RDirichletTree.tree st)
  ∧ RDirichletTree.candidateVector r.1 = RDirichletTree.candidateVector st
  ∧ RDirichletTree.candidateMap r.1 = RDirichletTree.candidateMap st
  ∧ RDirichletTree.observedDepths r.1
    = list_to_set (RDirichletTree.depth_of <$> bcs.*1)
      ∪ RDirichletTree.observedDepths st
  ∧ r.2 = ws ++ ((λ _, RDirichletTree.update_warning)
                   <$> filter (λ bc : IRVBallotCount,
                                 RDirichletTree.depth_of bc.1 < minDepth
                                 ∧ 0 < RDirichletTree.depth_of bc.1) bcs)
  ∧ (0 ≤ RDirichletTree.nObserved st < 2 ^ 64 →
     RDirichletTree.nObserved r.1
     = size_t_of (RDirichletTree.nObserved st + Zsum bcs.*2)).
Proof.
  revert st ws. induction bcs as [|bc bcs IH]; intros st ws.
  { simpl. rewrite !app_nil_r. split_and!; try done.
    - by rewrite (left_id_L ∅ (∪)).
    - intros Hr. unfold size_t_of, Zsum. simpl.
      rewrite Z.add_0_r, Z.mod_small; [done | lia]. }
  cbn [foldl].
  destruct (RDirichletTree.update_step minDepth (st, ws) bc) as [st1 ws1]
    eqn:Hstep.
  unfold RDirichletTree.update_step in Hstep.
  fold (RDirichletTree.depth_of bc.1) in Hstep.
  injection Hstep as Hst Hws.
  destruct (IH st1 ws1) as (Hobs & Hroot & Hpar & Heng & Hcv & Hcm & Hd & Hw
                            & Hn).
  simpl in Hobs, Hroot, Hpar, Heng, Hcv, Hcm, Hd, Hw, Hn.
  simpl. split_and!.
  - rewrite Hobs, <- Hst. simpl. by rewrite <- app_assoc.
  - rewrite Hroot, <- Hst. done.
  - rewrite Hpar, <- Hst. done.
  - rewrite Heng, <- Hst. done.
  - rewrite Hcv, <- Hst. done.
  - rewrite Hcm, <- Hst. done.
  - rewrite Hd, <- Hst. simpl. apply set_eq. intros d.
    rewrite !elem_of_union. tauto.
  - rewrite Hw, <- Hws. rewrite filter_cons.
    case_bool_decide; case_decide; try done; simpl;
      by rewrite <- ?app_assoc.
  - intros Hr. rewrite Hn.
    + rewrite <- Hst. simpl. rewrite size_t_of_add_l. unfold Zsum. simpl.
      f_equal. symmetry. apply Z.add_assoc.
    + rewrite <- Hst. simpl. unfold size_t_of.
      apply Z.mod_pos_bound. lia.
Qed.

(** X4. A call of [update] whose ballots all parse observes every one of
    them, in order: the ballots are appended to the observed list of the
    tree and handed to the root one after the other, the counter grows
    by their number, their depths are recorded, and the parameters, the
    engine and the candidates stay as they are. *)
Theorem update_observes st (bs : list (list string))
    (bcs : list IRVBallotCount) :
  RDirichletTree.parseBallotList st bs = Ok bcs →
  0 ≤ RDirichletTree.nObserved st < 2 ^ 64 →
  let st' := (RDirichletTree.update st bs).1 in
  is_error (RDirichletTree.update st bs).2 = false
  ∧ DirichletTree.observed (RDirichletTree.tree st')
    = DirichletTree.observed (RDirichletTree.tree st) ++ bcs.*1
  ∧ DirichletTree.root (RDirichletTree.tree st')
    = foldl (λ node (bc : IRVBallotCount),
               node_update (RDirichletTree.parameters_of st) node bc.1
                 (defaultPath (RDirichletTree.parameters_of st)) bc.2)
            (DirichletTree.root (RDirichletTree.tree st)) bcs
  ∧ RDirichletTree.nObserved st'
    = size_t_of (RDirichletTree.nObserved st + Z.of_nat (length bs))
  ∧ RDirichletTree.observedDepths st'
    = list_to_set (RDirichletTree.depth_of <$> bcs.*1)
      ∪ RDirichletTree.observedDepths st
  ∧ RDirichletTree.parameters_of st' = RDirichletTree.parameters_of st
  ∧ DirichletTree.engine (RDirichletTree.tree st')
    = DirichletTree.engine (RDirichletTree.tree st)
  ∧ RDirichletTree.candidateVector st' = RDirichletTree.candidateVector st
  ∧ RDirichletTree.candidateMap st' = RDirichletTree.candidateMap st.
Proof.
  intros Hp Hr.
  pose proof (proj2 (parseBallotList_indexed st bs bcs Hp)) as Hbcs.
  unfold RDirichletTree.update. rewrite Hp.
  pose proof (update_steps (getMinDepth (RDirichletTree.parameters_of st))
                bcs st []) as Hsteps.
  destruct (foldl _ (st, []) bcs) as [st' ws]. simpl in *.
  destruct Hsteps as (Hobs & Hroot & Hpar & Heng & Hcv & Hcm & Hd & _ & Hn).
  split_and!; try done.
  rewrite Hn by done. by rewrite Hbcs, Zsum_indexed.
Qed.

(** X5. [update] raises its warning once for every ballot that is not empty
    and shorter than [minDepth], and for no other; such a ballot is
    observed all the same. *)
Theorem update_warns_short_ballots st (bs : list (list string))
    (bcs : list IRVBallotCount) :
  RDirichletTree.parseBallotList st bs = Ok bcs →
  let minDepth := getMinDepth (RDirichletTree.parameters_of st) in
  (RDirichletTree.update st bs).2
  = Ok ((λ _, RDirichletTree.update_warning)
          <$> filter (λ bc : IRVBallotCount,
                        RDirichletTree.depth_of bc.1 < minDepth
                        ∧ 0 < RDirichletTree.depth_of bc.1) bcs)
  ∧ DirichletTree.observed
      (RDirichletTree.tree (RDirichletTree.update st bs).1)
    = DirichletTree.observed (RDirichletTree.tree st) ++ bcs.*1.
Proof.
  intros Hp minDepth. unfold RDirichletTree.update. rewrite Hp.
  pose proof (update_steps minDepth bcs st []) as Hsteps.
  fold minDepth.
  destruct (foldl _ (st, []) bcs) as [st' ws]. simpl in *.
  destruct Hsteps as (Hobs & _ & _ & _ & _ & _ & _ & Hw & _).
  by rewrite Hw.
Qed.

Lemma update_steps_warnings (minDepth : Z) (bcs : list IRVBallotCount) st
    (ws : list string) :
  foldl (RDirichletTree.update_step minDepth) (st, ws) bcs
  = ((foldl (RDirichletTree.update_step minDepth) (st, []) bcs).1,
     ws ++ (foldl (RDirichletTree.update_step minDepth) (st, []) bcs).2).
Proof.
  revert st ws. induction bcs as [|bc bcs IH]; intros st ws.
  { simpl. by rewrite app_nil_r. }
  cbn [foldl]. unfold RDirichletTree.update_step at 2 4 6.
  rewrite IH. symmetry. rewrite IH. simpl.
  case_bool_decide; simpl; by rewrite ?app_nil_r, <- ?app_assoc.
Qed.

(** X6. One call of [update] with two lists of ballots, one after the other,
    leaves the state that two calls leave, and raises the warnings of
    both, provided all ballots parse. *)
Theorem update_app st (bs1 bs2 : list (list string))
    (bcs : list IRVBallotCount) :
  RDirichletTree.parseBallotList st (bs1 ++ bs2) = Ok bcs →
  let r1 := RDirichletTree.update st bs1 in
  let r2 := RDirichletTree.update r1.1 bs2 in
  ∃ ws1 ws2,
    r1.2 = Ok ws1 ∧ r2.2 = Ok ws2
    ∧ RDirichletTree.update st (bs1 ++ bs2) = (r2.1, Ok (ws1 ++ ws2)).
Proof.
  intros Hp.
  pose proof (proj1 (parseBallotList_indexed st (bs1 ++ bs2) bcs Hp))
    as Hall.
  pose proof (proj1 (Forall_app _ _ _) Hall) as [Hall1 Hall2].
  clear Hp. unfold RDirichletTree.update, RDirichletTree.parseBallotList.
  rewrite (parseBallotList_loop_known _ _ [] Hall1).
  rewrite (parseBallotList_loop_known _ _ [] Hall).
  cbn [app].
  set (minDepth := getMinDepth (RDirichletTree.parameters_of st)).
  rewrite fmap_app, foldl_app.
  pose proof (update_steps minDepth
                (indexed (RDirichletTree.candidateMap st) <$> bs1) st [])
    as (_ & _ & Hpar & _ & _ & Hcm & _).
  destruct (foldl _ (st, []) (indexed _ <$> bs1)) as [st1 ws1] eqn:H1.
  simpl in Hpar, Hcm. simpl.
  rewrite Hcm, (parseBallotList_loop_known _ _ [] Hall2). simpl.
  rewrite Hpar. fold minDepth.
  rewrite (update_steps_warnings minDepth _ st1 ws1).
  destruct (foldl _ (st1, []) (indexed _ <$> bs2)) as [st2 ws2] eqn:H2.
  simpl. by exists ws1, ws2.
Qed.

End UpdateProperties.

(** ** What sampling leaves behind *)

Section FrameProperties.
Context {Node Outcome Parameters E Prob : Type}.
Context `{!Mt19937 E, !ParametersType Parameters,
          !NodeType Node Outcome Parameters E Prob}.
Implicit Types (tr : DirichletTree.t Node Outcome Parameters E).

Lemma use_engine_none {A : Type} tr (f : E → A * E) :
  DirichletTree.use_engine tr None f
  = ((f (DirichletTree.engine tr)).1,
     DirichletTree.set_engine (f (DirichletTree.engine tr)).2 tr, None).
Proof.
  unfold DirichletTree.use_engine. by destruct (f (DirichletTree.engine tr)).
Qed.

Lemma posteriorSets_loop_none iters N n tr out :
  let r := DirichletTree.posteriorSets_loop iters N n tr None out in
  DirichletTree.root r.1.2 = DirichletTree.root tr
  ∧ DirichletTree.parameters r.1.2 = DirichletTree.parameters tr
  ∧ DirichletTree.observed r.1.2 = DirichletTree.observed tr
  ∧ r.2 = None.
Proof.
  revert tr out.
  induction iters as [|iters IH]; intros tr out;
    cbn [DirichletTree.posteriorSets_loop]; [done|].
  unfold DirichletTree.sample. rewrite use_engine_none.
  match goal with
  | |- context [DirichletTree.posteriorSets_loop iters N n ?tr1 None ?out1] =>
      destruct (IH tr1 out1) as (Hroot & Hpar & Hobs & Hnone)
  end.
  simpl in *. by rewrite Hroot, Hpar, Hobs, Hnone.
Qed.

(** X7. The sampling calls of the facade leave the root, the parameters and
    the observed list as they are.  With an engine of the caller the
    tree is returned unchanged, its own engine included, and the engine
    handed back is the caller's, advanced; without one only the engine
    of the tree moves. *)
Theorem facade_sampling_frame tr (o : Outcome) (n nSets N : Z) (e : E) :
  ((DirichletTree.sample tr n (Some e)).1.2 = tr
   ∧ is_Some (DirichletTree.sample tr n (Some e)).2
   ∧ (DirichletTree.marginalProbability tr o (Some e)).1.2 = tr
   ∧ is_Some (DirichletTree.marginalProbability tr o (Some e)).2
   ∧ (DirichletTree.posteriorSets tr nSets N (Some e)).1.2 = tr
   ∧ is_Some (DirichletTree.posteriorSets tr nSets N (Some e)).2)
  ∧ (∃ e1, (DirichletTree.sample tr n None).1.2
           = DirichletTree.set_engine e1 tr)
  ∧ (∃ e1, (DirichletTree.marginalProbability tr o None).1.2
           = DirichletTree.set_engine e1 tr)
  ∧ (let r := DirichletTree.posteriorSets tr nSets N None in
     DirichletTree.root r.1.2 = DirichletTree.root tr
     ∧ DirichletTree.parameters r.1.2 = DirichletTree.parameters tr
     ∧ DirichletTree.observed r.1.2 = DirichletTree.observed tr
     ∧ r.2 = None).
Proof.
  split_and!.
  - apply sample_some.
  - apply sample_some.
  - unfold DirichletTree.marginalProbability. by rewrite use_engine_some.
  - unfold DirichletTree.marginalProbability. rewrite use_engine_some.
    simpl. eauto.
  - apply posteriorSets_loop_some.
  - apply posteriorSets_loop_some.
  - unfold DirichletTree.sample. rewrite use_engine_none. simpl. eauto.
  - unfold DirichletTree.marginalProbability. rewrite use_engine_none.
    simpl. eauto.
  - apply posteriorSets_loop_none.
Qed.

End FrameProperties.

Section DriverFrame.
Import IRV.
Context {Node E : Type}.
Context `{!Mt19937 E, !Distributions E,
          !NodeType Node IRVBallot IRVParameters E Q}.
Implicit Types (st : RDirichletTree.t Node E).




(** X9. The split of the elections over the batches accounts for every
    election: the batches and the remainder add up to [nElections], and
    the remainder is smaller than the number of batches, except that a
    single election is left to the remainder whole. *)
Theorem batch_sizes_sum (nElections nBatches : Z) :
  1 ≤ nBatches → 0 ≤ nElections →
  let '(batchSize, batchRemainder) :=
    RDirichletTree.batch_sizes nElections nBatches in
  batchSize * nBatches + batchRemainder = nElections
  ∧ 0 ≤ batchSize ∧ 0 ≤ batchRemainder
  ∧ (1 < nElections → batchRemainder < nBatches)
  ∧ (nElections ≤ 1 → batchSize = 0).
Proof.
  intros Hb He. unfold RDirichletTree.batch_sizes.
  case_bool_decide as Hle.
  { split_and!; lia. }
  pose proof (Z.div_mod nElections nBatches ltac:(lia)).
  pose proof (Z.mod_pos_bound nElections nBatches ltac:(lia)).
  pose proof (Z.div_pos nElections nBatches ltac:(lia) ltac:(lia)).
  split_and!; lia.
Qed.

Lemma samplePredictive_frame st (nSamples : Z) (seed : string) :
  ∃ e, (RDirichletTree.samplePredictive st nSamples seed).1
       = RDirichletTree.with_engine e st.
Proof.
  unfold RDirichletTree.samplePredictive, DirichletTree.sample.
  rewrite use_engine_none. simpl. eauto.
Qed.

Lemma samplePosterior_frame st
    (nElections nBallots nWinners nBatches : Z) (seed : string)
    (sched : list nat) :
  ∃ e, (RDirichletTree.samplePosterior_with sched st nElections nBallots
          nWinners nBatches seed).1
       = RDirichletTree.with_engine e st.
Proof.
  unfold RDirichletTree.samplePosterior_with. case_bool_decide.
  - exists (DirichletTree.engine (RDirichletTree.tree st)).
    by destruct st as [[] ? ? ? ?].
  - unfold RDirichletTree.seeded.
    cbn [DirichletTree.engine DirichletTree.setSeed DirichletTree.set_engine].
    destruct (RDirichletTree.draw_seeds (S (Z.to_nat nBatches))
                (warmup (mt_seed_seq seed)) []). eauto.
Qed.

(** X10. Neither sampling call changes anything but the engine of the tree.
    After a [samplePosterior] that passed its guard the engine is the
    one the seed string and the number of batches give, whatever the
    tree, the other arguments and the interleaving of the jobs. *)
Theorem sampling_changes_engine_only st
    (nSamples nElections nBallots nWinners nBatches : Z) (seed : string)
    (sched : list nat) :
  (∃ e, (RDirichletTree.samplePredictive st nSamples seed).1
        = RDirichletTree.with_engine e st)
  ∧ (RDirichletTree.nObserved st ≤ nBallots →
     1 ≤ nBatches < 2 ^ 32 - 1 →
     (RDirichletTree.samplePosterior_with sched st nElections nBallots
                                          nWinners nBatches seed).1
     = RDirichletTree.with_engine
         (mt_discard (state_size * 100)
            (RDirichletTree.draw_seeds (S (Z.to_nat nBatches))
               (warmup (mt_seed_seq seed)) []).2)
         st).
Proof.
  split.
  - unfold RDirichletTree.samplePredictive, DirichletTree.sample.
    rewrite use_engine_none. simpl. eauto.
  - intros Hle _. unfold RDirichletTree.samplePosterior_with.
    rewrite bool_decide_eq_false_2 by lia.
    unfold RDirichletTree.seeded.
    cbn [DirichletTree.engine DirichletTree.setSeed DirichletTree.set_engine].
    by destruct (RDirichletTree.draw_seeds (S (Z.to_nat nBatches))
                   (warmup (mt_seed_seq seed)) []).
Qed.

Lemma count_winners_none (nCandidates nWinners : Z) (out : list Z)
    (order : list nat) :
  0 ≤ nCandidates < 2 ^ 32 →
  nWinners = 0 ∨ nCandidates < nWinners < 2 ^ 32 →
  RDirichletTree.count_winners nCandidates nWinners out order = out.
Proof.
  intros Hn Hw. unfold RDirichletTree.count_winners, size_t_of.
  assert (Z.to_nat nCandidates
          - Z.to_nat ((nCandidates - nWinners) `mod` 2 ^ 64) = 0)%nat as ->;
    [|done].
  destruct Hw as [->|Hw].
  - rewrite Z.sub_0_r, Z.mod_small by lia. lia.
  - replace ((nCandidates - nWinners) `mod` 2 ^ 64)
      with (nCandidates - nWinners + 2 ^ 64); [lia|].
    apply Z.mod_unique_pos with (q := -1); lia.
Qed.

(** X11. [samplePosterior] does not check [nWinners]: with no winner to
    elect, or with more winners than candidates, the call goes through
    and every candidate is given the probability 0. *)
Theorem samplePosterior_unchecked_nWinners st
    (nElections nBallots nWinners nBatches : Z) (seed : string)
    (sched : list nat) :
  let nCandidates := getNCandidates (RDirichletTree.parameters_of st) in
  1 ≤ nElections →
  RDirichletTree.nObserved st ≤ nBallots < 2 ^ 31 →
  1 ≤ nBatches < 2 ^ 32 - 1 →
  0 ≤ nCandidates < 2 ^ 32 →
  nWinners = 0 ∨ nCandidates < nWinners < 2 ^ 32 →
  (RDirichletTree.samplePosterior_with sched st nElections nBallots nWinners
                                       nBatches seed).2
  = Ok (replicate (Z.to_nat nCandidates)
                  (inject_Z 0 / inject_Z nElections)%Q).
Proof.
  intros nCandidates _ Hle _ Hn Hw.
  unfold RDirichletTree.samplePosterior_with.
  rewrite bool_decide_eq_false_2 by lia.
  unfold RDirichletTree.seeded.
  cbn [DirichletTree.engine DirichletTree.setSeed DirichletTree.set_engine].
  destruct (RDirichletTree.draw_seeds (S (Z.to_nat nBatches))
              (warmup (mt_seed_seq seed)) []) as [seeds e1].
  cbn [snd DirichletTree.parameters].
  fold (RDirichletTree.parameters_of st). fold nCandidates. f_equal.
  set (results := RDirichletTree.run_schedule _ _ _). clearbody results.
  unfold RDirichletTree.aggregate.
  assert (∀ out, foldl (foldl (RDirichletTree.count_winners nCandidates
                                 nWinners)) out results = out) as ->.
  { induction results as [|batch results IH]; intros out; simpl; [done|].
    rewrite <- (IH out) at 2. f_equal.
    induction batch as [|order batch IHb] in out |- *; simpl; [done|].
    by rewrite count_winners_none, IHb. }
  unfold RDirichletTree.normalise. by rewrite fmap_replicate.
Qed.

End DriverFrame.

(** ** Invariants of the interface *)

Section InvariantProperties.
Import IRV.
Context {Node E : Type}.
Context `{!Mt19937 E, !Distributions E,
          !NodeType Node IRVBallot IRVParameters E Q}.
Implicit Types (st : RDirichletTree.t Node E).

Lemma update_parameters st (bs : list (list string)) :
  RDirichletTree.parameters_of (RDirichletTree.update st bs).1
  = RDirichletTree.parameters_of st.
Proof.
  unfold RDirichletTree.update.
  destruct (RDirichletTree.parseBallotList st bs) as [bcs|msg]; [|done].
  pose proof (update_steps (getMinDepth (RDirichletTree.parameters_of st))
                bcs st []) as (_ & _ & Hpar & _).
  by destruct (foldl _ (st, []) bcs).
Qed.

(** X12. A depth setter that goes through leaves [minDepth <= maxDepth],
    whatever the parameters were before, and one that is refused leaves
    the state as it is; no other call of the interface touches the two
    depths.  So once the depths are in order they stay in order. *)
Theorem depths_ordered_kept st (m : Z) (a0_ : Q) (vd_ : bool)
    (bs : list (list string))
    (nSamples nElections nBallots nWinners nBatches : Z) (seed : string)
    (sched : list nat) :
  (is_error (RDirichletTree.setMinDepth st m).2 = false →
   RDirichletTree.depths_ordered (RDirichletTree.setMinDepth st m).1)
  ∧ (is_error (RDirichletTree.setMaxDepth st m).2 = false →
     RDirichletTree.depths_ordered (RDirichletTree.setMaxDepth st m).1)
  ∧ (is_error (RDirichletTree.setMinDepth st m).2 = true →
     (RDirichletTree.setMinDepth st m).1 = st)
  ∧ (is_error (RDirichletTree.setMaxDepth st m).2 = true →
     (RDirichletTree.setMaxDepth st m).1 = st)
  ∧ (RDirichletTree.depths_ordered st →
     RDirichletTree.depths_ordered (RDirichletTree.setMinDepth st m).1
     ∧ RDirichletTree.depths_ordered (RDirichletTree.setMaxDepth st m).1
     ∧ RDirichletTree.depths_ordered (RDirichletTree.setA0 st a0_)
     ∧ RDirichletTree.depths_ordered (RDirichletTree.setVD st vd_)
     ∧ RDirichletTree.depths_ordered (RDirichletTree.update st bs).1
     ∧ RDirichletTree.depths_ordered (RDirichletTree.reset st)
     ∧ RDirichletTree.depths_ordered
         (RDirichletTree.samplePredictive st nSamples seed).1
     ∧ RDirichletTree.depths_ordered
         (RDirichletTree.samplePosterior_with sched st nElections nBallots
            nWinners nBatches seed).1).
Proof.
  unfold RDirichletTree.depths_ordered.
  split_and!.
  - unfold RDirichletTree.setMinDepth. case_bool_decide; [done|].
    intros _. simpl. lia.
  - unfold RDirichletTree.setMaxDepth. case_bool_decide; [done|].
    intros _. simpl. lia.
  - unfold RDirichletTree.setMinDepth. by case_bool_decide.
  - unfold RDirichletTree.setMaxDepth. by case_bool_decide.
  - intros Hord. split_and!.
    + unfold RDirichletTree.setMinDepth. case_bool_decide; [done|].
      simpl. lia.
    + unfold RDirichletTree.setMaxDepth. case_bool_decide; [done|].
      simpl. lia.
    + done.
    + done.
    + by rewrite update_parameters.
    + done.
    + by destruct (samplePredictive_frame st nSamples seed) as [e ->].
    + by destruct (samplePosterior_frame st nElections nBallots nWinners
                     nBatches seed sched) as [e ->].
Qed.

Lemma depth_of_indexed (cm : gmap string nat) (ballot : list string) :
  Z.of_nat (length ballot) < 2 ^ 32 →
  RDirichletTree.depth_of (indexed cm ballot).1 = Z.of_nat (length ballot).
Proof.
  intros Hlen. unfold RDirichletTree.depth_of, unsigned_of, nPreferences.
  simpl. rewrite length_fmap, Z.mod_small; [done | lia].
Qed.

(** X13. The counter of observed ballots and the set of observed depths
    describe the list of observed ballots of the tree from the
    construction on and through every update, setter and sampling call
    (as long as the counter does not wrap). *)
Theorem in_sync_kept st (candidates : list string) (minDepth_ maxDepth_ : Z)
    (a0_ : Q) (vd_ : bool) (seed_ : string) (m : Z)
    (bs : list (list string))
    (nSamples nElections nBallots nWinners nBatches : Z) (seed : string)
    (sched : list nat) :
  RDirichletTree.in_sync
    (RDirichletTree.make (Node := Node) (E := E) candidates minDepth_
       maxDepth_ a0_ vd_ seed_)
  ∧ (RDirichletTree.in_sync st →
     RDirichletTree.nObserved st + Z.of_nat (length bs) < 2 ^ 64 →
     RDirichletTree.in_sync (RDirichletTree.update st bs).1)
  ∧ (RDirichletTree.in_sync st →
     RDirichletTree.in_sync (RDirichletTree.setMinDepth st m).1
     ∧ RDirichletTree.in_sync (RDirichletTree.setMaxDepth st m).1
     ∧ RDirichletTree.in_sync (RDirichletTree.setA0 st a0_)
     ∧ RDirichletTree.in_sync (RDirichletTree.setVD st vd_)
     ∧ RDirichletTree.in_sync
         (RDirichletTree.samplePredictive st nSamples seed).1
     ∧ RDirichletTree.in_sync
         (RDirichletTree.samplePosterior_with sched st nElections nBallots
            nWinners nBatches seed).1).
Proof.
  split_and!.
  - split; [done|]. simpl. done.
  - intros [Hn Hd] Hbound.
    destruct (RDirichletTree.parseBallotList st bs) as [bcs|msg] eqn:Hp.
    + assert (0 ≤ RDirichletTree.nObserved st < 2 ^ 64) as Hr by lia.
      pose proof (update_steps
                    (getMinDepth (RDirichletTree.parameters_of st)) bcs st [])
        as (Hobs & _ & _ & _ & _ & _ & Hd' & _ & Hn').
      pose proof (proj2 (parseBallotList_indexed st bs bcs Hp)) as Hbcs.
      unfold RDirichletTree.update. rewrite Hp.
      destruct (foldl _ (st, []) bcs) as [st1 ws1].
      simpl in Hobs, Hn', Hd'. specialize (Hn' Hr). simpl. split.
      * rewrite Hn', Hobs, length_app, length_fmap, Hbcs, Zsum_indexed,
          length_fmap.
        unfold size_t_of. rewrite Z.mod_small by lia. lia.
      * rewrite Hd', Hobs, Hd, fmap_app, list_to_set_app_L.
        apply (comm_L (∪)).
    + unfold RDirichletTree.update. rewrite Hp. done.
  - intros Hsync. split_and!.
    + unfold RDirichletTree.setMinDepth. by case_bool_decide.
    + unfold RDirichletTree.setMaxDepth. by case_bool_decide.
    + done.
    + done.
    + by destruct (samplePredictive_frame st nSamples seed) as [e ->].
    + by destruct (samplePosterior_frame st nElections nBallots nWinners
                     nBatches seed sched) as [e ->].
Qed.

(** X14. Once a ballot that is not empty has been observed, setting
    [minDepth] above its length goes through with the warning; after a
    [reset] the same call raises none, the depths being forgotten. *)
Theorem setMinDepth_warns_after_update st (bs : list (list string))
    (bcs : list IRVBallotCount) (ballot : list string) (m : Z) :
  RDirichletTree.parseBallotList st bs = Ok bcs →
  ballot ∈ bs →
  0 < Z.of_nat (length ballot) < m → m < 2 ^ 32 →
  m ≤ getMaxDepth (RDirichletTree.parameters_of st) →
  let st' := (RDirichletTree.update st bs).1 in
  (RDirichletTree.setMinDepth st' m).2
  = Ok [RDirichletTree.minDepth_warning]
  ∧ (RDirichletTree.setMinDepth (RDirichletTree.reset st') m).2 = Ok [].
Proof.
  intros Hp Hin Hlen Hm Hmax st'.
  pose proof (update_parameters st bs) as Hpar. fold st' in Hpar.
  pose proof (update_steps (getMinDepth (RDirichletTree.parameters_of st))
                bcs st []) as (_ & _ & _ & _ & _ & _ & Hd & _).
  assert (RDirichletTree.observedDepths st'
          = list_to_set (RDirichletTree.depth_of <$> bcs.*1)
            ∪ RDirichletTree.observedDepths st) as Hd'.
  { subst st'. unfold RDirichletTree.update. rewrite Hp.
    by destruct (foldl _ (st, []) bcs). }
  clear Hd.
  pose proof (proj2 (parseBallotList_indexed st bs bcs Hp)) as Hbcs.
  split.
  - unfold RDirichletTree.setMinDepth.
    rewrite Hpar, bool_decide_eq_false_2 by lia. simpl.
    rewrite bool_decide_eq_true_2; [done|].
    exists (Z.of_nat (length ballot)). split; [|lia].
    rewrite Hd'. apply elem_of_union_l, elem_of_list_to_set.
    apply list_elem_of_fmap.
    exists (indexed (RDirichletTree.candidateMap st) ballot).1.
    split; [by rewrite depth_of_indexed by lia|].
    apply list_elem_of_fmap. eexists. split; [done|].
    rewrite Hbcs. apply list_elem_of_fmap. by eexists.
  - unfold RDirichletTree.setMinDepth.
    assert (RDirichletTree.parameters_of (RDirichletTree.reset st')
            = RDirichletTree.parameters_of st') as -> by done.
    rewrite Hpar, bool_decide_eq_false_2 by lia. simpl.
    rewrite bool_decide_eq_false_2; [done|].
    intros (d & Hd & _). by apply not_elem_of_empty in Hd.
Qed.

Lemma length_remove_dups (l : list string) :
  (length (remove_dups l) ≤ length l)%nat.
Proof.
  induction l as [|x l IH]; simpl; [done|].
  destruct (decide_rel elem_of x l); simpl; lia.
Qed.

(** X15. [getCandidates] lists every name of the vector of candidates once,
    however often the vector repeats it, while [nCandidates] counts the
    repetitions too. *)
Theorem getCandidates_make (candidates : list string)
    (minDepth_ maxDepth_ : Z) (a0_ : Q) (vd_ : bool) (seed_ : string) :
  let st := RDirichletTree.make (Node := Node) (E := E) candidates minDepth_
              maxDepth_ a0_ vd_ seed_ in
  RDirichletTree.getCandidates st ≡ₚ remove_dups candidates
  ∧ getNCandidates (RDirichletTree.parameters_of st)
    = Z.of_nat (length candidates)
  ∧ (length (RDirichletTree.getCandidates st) ≤ length candidates)%nat.
Proof.
  intros st.
  assert (RDirichletTree.getCandidates st ≡ₚ remove_dups candidates) as Hperm.
  { apply NoDup_Permutation.
    - apply NoDup_fst_map_to_list.
    - apply NoDup_remove_dups.
    - intros name. rewrite elem_of_remove_dups.
      unfold RDirichletTree.getCandidates.
      rewrite list_elem_of_fmap. split.
      + intros ([name' i] & -> & Hin). simpl.
        apply elem_of_map_to_list in Hin. simpl in Hin.
        apply index_candidates_iff in Hin as [Hi _].
        by eapply list_elem_of_lookup_2.
      + intros Hin.
        destruct (index_candidates_known candidates name Hin) as (i & Hi & _).
        exists (name, i). split; [done|]. by apply elem_of_map_to_list. }
  split_and!; [done | done |].
  rewrite Hperm. apply length_remove_dups.
Qed.

End InvariantProperties.

(** ** The indexing of the candidates in [RSocialChoiceIRV] *)

Section IndexingProperties.
Import IRV.
Context {E : Type} `{!Mt19937 E, !Distributions E}.

Lemma indexes_NoDup (c2Index : gmap string nat) (cNames : list string) :
  indexes c2Index cNames → NoDup cNames.
Proof.
  intros Hidx. apply NoDup_alt. intros i j name Hi Hj.
  apply (proj2 (Hidx _ _)) in Hi. apply (proj2 (Hidx _ _)) in Hj.
  congruence.
Qed.

Lemma indexes_snoc (c2Index : gmap string nat) (cNames : list string)
    (cName : string) :
  indexes c2Index cNames → c2Index !! cName = None →
  indexes (<[cName := length cNames]> c2Index) (cNames ++ [cName]).
Proof.
  intros Hidx Hnone name i.
  destruct (decide (cName = name)) as [->|Hne].
  - rewrite lookup_insert_eq. split.
    + intros [= <-]. by rewrite lookup_app_r, Nat.sub_diag by lia.
    + intros Hi. f_equal.
      destruct (decide (i < length cNames)%nat) as [Hlt|Hge].
      * rewrite lookup_app_l in Hi by done.
        apply (proj2 (Hidx _ _)) in Hi. congruence.
      * apply lookup_lt_Some in Hi. rewrite length_app in Hi. simpl in Hi.
        lia.
  - rewrite lookup_insert_ne by done. rewrite (Hidx name i). split.
    + intros Hi. by apply lookup_app_l_Some.
    + intros Hi. destruct (decide (i < length cNames)%nat) as [Hlt|Hge].
      * by rewrite lookup_app_l in Hi.
      * rewrite lookup_app_r in Hi by lia.
        apply list_lookup_singleton_Some in Hi as [_ ?]. congruence.
Qed.

(** What indexing one ballot does: the map and the vector keep
    describing each other, the vector only grows, and the indices pushed
    are positions of the names of the ballot. *)
Lemma index_names_spec (bNames : list string) (c2Index : gmap string nat)
    (cNames : list string) (bIndices : list nat) :
  indexes c2Index cNames →
  let r := index_names bNames c2Index cNames bIndices in
  indexes r.1.1 r.1.2
  ∧ cNames `prefix_of` r.1.2
  ∧ (∀ name, name ∈ r.1.2 ↔ name ∈ cNames ∨ name ∈ bNames)
  ∧ ∃ new, r.2 = bIndices ++ new
           ∧ Forall2 (λ name i, r.1.2 !! i = Some name) bNames new.
Proof.
  revert c2Index cNames bIndices.
  induction bNames as [|cName bNames IH]; intros c2Index cNames bIndices Hidx.
  { simpl. split_and!; [done | done | |].
    - intros name. rewrite elem_of_nil. tauto.
    - exists []. by rewrite app_nil_r. }
  cbn [index_names].
  destruct (c2Index !! cName) as [cIndex|] eqn:Hc.
  - destruct (IH c2Index cNames (bIndices ++ [cIndex]) Hidx)
      as (Hidx' & Hpre & Hin & new & Hnew & Hall).
    split_and!; [done | done | |].
    + intros name. rewrite Hin, elem_of_cons. split; [tauto|].
      intros [?|[->|?]]; [tauto | | tauto].
      left. apply (proj1 (Hidx _ _)) in Hc. by eapply list_elem_of_lookup_2.
    + exists (cIndex :: new). split; [by rewrite Hnew, <- app_assoc|].
      constructor; [|done].
      apply (proj1 (Hidx _ _)) in Hc. by eapply prefix_lookup_Some.
  - destruct (IH (<[cName := length cNames]> c2Index) (cNames ++ [cName])
                (bIndices ++ [length cNames]))
      as (Hidx' & Hpre & Hin & new & Hnew & Hall).
    { by apply indexes_snoc. }
    split_and!; [done | | |].
    + etrans; [|exact Hpre]. by apply prefix_app_r.
    + intros name. rewrite Hin, elem_of_app, list_elem_of_singleton,
        elem_of_cons. tauto.
    + exists (length cNames :: new). split; [by rewrite Hnew, <- app_assoc|].
      constructor; [|done].
      eapply prefix_lookup_Some; [|exact Hpre].
      by rewrite lookup_app_r, Nat.sub_diag by lia.
Qed.

Lemma index_ballots_spec (bs : list (list string)) (s : IndexState) :
  indexes (c2Index s) (cNames s) →
  let s' := index_ballots bs s in
  indexes (c2Index s') (cNames s')
  ∧ cNames s `prefix_of` cNames s'
  ∧ (∀ name, name ∈ cNames s'
             ↔ name ∈ cNames s ∨ ∃ b, b ∈ bs ∧ name ∈ b)
  ∧ ∃ new, scInput s' = scInput s ++ new
           ∧ Forall2 (λ b (bc : IRVBallotCount),
                        bc.2 = 1
                        ∧ Forall2 (λ name i, cNames s' !! i = Some name)
                                  b (preferences bc.1))
                     (filter (λ b, b ≠ []) bs) new.
Proof.
  revert s. induction bs as [|b bs IH]; intros s Hidx.
  { simpl. split_and!; [done | done | |].
    - intros name. split; [tauto|]. intros [?|(b & Hb & _)]; [done|].
      by apply elem_of_nil in Hb.
    - exists []. rewrite app_nil_r. split; [done | constructor]. }
  destruct b as [|cName bNames].
  { cbn [index_ballots].
    rewrite filter_cons_False by (intros Hne; by apply Hne).
    destruct (IH s Hidx) as (Hidx' & Hpre & Hin & new & Hnew & Hall).
    split_and!; [done | done | | by exists new].
    intros name. rewrite Hin. split.
    - intros [?|(b & Hb & Hn)]; [tauto|]. right. exists b.
      split; [by right | done].
    - intros [?|(b & Hb & Hn)]; [tauto|]. right. exists b. split; [|done].
      apply elem_of_cons in Hb as [->|Hb]; [|done].
      by apply elem_of_nil in Hn. }
  cbn [index_ballots]. rewrite filter_cons_True by done.
  pose proof (index_names_spec (cName :: bNames) (c2Index s) (cNames s) []
                Hidx) as (Hidx1 & Hpre1 & Hin1 & idx & Hidxs & Hall1).
  destruct (index_names (cName :: bNames) (c2Index s) (cNames s) [])
    as [[c2Index1 cNames1] bIndices].
  simpl in Hidx1, Hpre1, Hin1, Hidxs, Hall1. subst bIndices.
  destruct (IH (mkIndexState c2Index1 cNames1
                  (scInput s ++ [(mkIRVBallot idx, 1)])) Hidx1)
    as (Hidx' & Hpre & Hin & new & Hnew & Hall).
  simpl in Hpre, Hin, Hnew.
  split_and!; [done | by etrans | |].
  - intros name. rewrite Hin, Hin1. split.
    + intros [[?|Hb]|(b & Hb & Hn)]; [tauto | |].
      * right. exists (cName :: bNames). split; [by left | done].
      * right. exists b. split; [by right | done].
    + intros [?|(b & Hb & Hn)]; [tauto|].
      apply elem_of_cons in Hb as [->|Hb]; [tauto|]. right. by exists b.
  - exists ((mkIRVBallot idx, 1) :: new).
    split; [by rewrite Hnew, <- app_assoc|].
    constructor; [|done]. split; [done|]. simpl.
    eapply Forall2_impl; [exact Hall1|].
    intros name i Hi. exact (prefix_lookup_Some _ _ _ _ Hi Hpre).
Qed.

Lemma indexes_empty : indexes ∅ [].
Proof. intros name i. by rewrite lookup_empty, lookup_nil. Qed.

(** The state the loop of [RSocialChoiceIRV] ends in. *)
Lemma index_ballots_init (bs : list (list string)) :
  let s := index_ballots bs (mkIndexState ∅ [] []) in
  indexes (c2Index s) (cNames s)
  ∧ (∀ name, name ∈ cNames s ↔ ∃ b, b ∈ bs ∧ name ∈ b)
  ∧ Forall2 (λ b (bc : IRVBallotCount),
               bc.2 = 1
               ∧ Forall2 (λ name i, cNames s !! i = Some name)
                         b (preferences bc.1))
            (filter (λ b, b ≠ []) bs) (scInput s).
Proof.
  destruct (index_ballots_spec bs (mkIndexState ∅ [] []) indexes_empty)
    as (Hidx & _ & Hin & new & Hnew & Hall).
  simpl in *. split_and!; [done | |].
  - intros name. rewrite Hin, elem_of_nil. tauto.
  - by rewrite Hnew.
Qed.

Lemma Forall2_positions (cNames : list string) (b : list string)
    (idx : list nat) :
  Forall2 (λ name i, cNames !! i = Some name) b idx →
  (λ i, cNames !!! i) <$> idx = b
  ∧ Forall (λ i, i < length cNames)%nat idx
  ∧ length idx = length b.
Proof.
  induction 1 as [|name i b idx Hi _ (IH1 & IH2 & IH3)]; [done|].
  split_and!.
  - rewrite fmap_cons, IH1. f_equal. by apply list_lookup_total_correct.
  - constructor; [by eapply lookup_lt_Some | done].
  - simpl. by rewrite IH3.
Qed.

(** X16. The candidates of [RSocialChoiceIRV] are the names the ballots
    mention, each once; every ballot handed to the social choice
    function has count 1, is not empty and ranks positions of the vector
    of candidates only; and there is one such ballot for every ballot of
    the input that is not empty. *)
Theorem RSocialChoiceIRV_indexing (bs : list (list string)) :
  let s := index_ballots bs (mkIndexState ∅ [] []) in
  NoDup (cNames s)
  ∧ (∀ name, name ∈ cNames s ↔ ∃ b, b ∈ bs ∧ name ∈ b)
  ∧ Forall (λ bc : IRVBallotCount,
              bc.2 = 1 ∧ preferences bc.1 ≠ []
              ∧ Forall (λ i, i < length (cNames s))%nat (preferences bc.1))
           (scInput s)
  ∧ length (scInput s) = length (filter (λ b, b ≠ []) bs).
Proof.
  destruct (index_ballots_init bs) as (Hidx & Hin & Hall). simpl in *.
  split_and!.
  - by eapply indexes_NoDup.
  - done.
  - assert (Forall (λ b : list string, b ≠ []) (filter (λ b, b ≠ []) bs))
      as Hne.
    { apply Forall_forall. intros b Hb.
      by apply list_elem_of_filter in Hb as [? _]. }
    induction Hall as [|b bc bs' bcs [Hcount Hpos] _ IH]; [done|].
    apply Forall_cons in Hne as [Hb Hne].
    constructor; [|by apply IH].
    destruct (Forall2_positions _ _ _ Hpos) as (_ & Hrange & Hlen).
    split_and!; [done | | done].
    intros Hnil. rewrite Hnil in Hlen. by destruct b.
  - symmetry. by eapply Forall2_length.
Qed.

(** X17. The indices stand for the names they were made from: reading each
    ballot handed to the social choice function back through the vector
    of candidates gives the ballots of the input that are not empty. *)
Theorem RSocialChoiceIRV_round_trip (bs : list (list string)) :
  let s := index_ballots bs (mkIndexState ∅ [] []) in
  decoded (cNames s) <$> scInput s = filter (λ b, b ≠ []) bs.
Proof.
  destruct (index_ballots_init bs) as (_ & _ & Hall). simpl in *.
  induction Hall as [|b bc bs' bcs [_ Hpos] _ IH]; [done|].
  rewrite fmap_cons, IH. f_equal. unfold decoded.
  by destruct (Forall2_positions _ _ _ Hpos) as (-> & _ & _).
Qed.

Lemma index_ballots_filter (bs : list (list string)) (s : IndexState) :
  index_ballots (filter (λ b, b ≠ []) bs) s = index_ballots bs s.
Proof.
  revert s. induction bs as [|b bs IH]; intros s; [done|].
  destruct b as [|cName bNames].
  - rewrite filter_cons_False by (intros Hne; by apply Hne). simpl. apply IH.
  - rewrite filter_cons_True by done. cbn [index_ballots].
    destruct (index_names _ _ _ _) as [[? ?] ?]. apply IH.
Qed.

(** X18. Empty ballots are of no consequence: with them or without them the
    call returns the same result or stops with the same error. *)
Theorem RSocialChoiceIRV_ignores_empty (bs : list (list string))
    (nWinners : Z) (seed : string) :
  RSocialChoiceIRV (filter (λ b, b ≠ []) bs) nWinners seed
  = RSocialChoiceIRV bs nWinners seed.
Proof. unfold RSocialChoiceIRV. by rewrite index_ballots_filter. Qed.

End IndexingProperties.

(** ** The partial-ballot tree of [RcppIRV.cpp] *)

Section PartialTreeProperties.
Import IRV.
Context {Node E : Type}.
Context `{!Mt19937 E, !Distributions E,
          !NodeType Node IRVBallot IRVParameters E Q}.
Implicit Types (st : PIRVDirichletTree.t Node E).
Implicit Types (cm : gmap string nat).

Lemma index_or_insert_lookup cm (name x : string) :
  let r := PIRVDirichletTree.index_or_insert cm name in
  r.1 = default 0%nat (cm !! name)
  ∧ r.2 !! x = (if decide (x = name) then Some (default 0%nat (cm !! name))
                else cm !! x).
Proof.
  unfold PIRVDirichletTree.index_or_insert.
  destruct (cm !! name) as [cIndex|] eqn:Hc; simpl.
  - split; [done|]. case_decide as Hx; [by subst x | done].
  - split; [done|]. case_decide as Hx.
    + subst x. by rewrite lookup_insert_eq.
    + by rewrite lookup_insert_ne.
Qed.

(** What the loop over the names of the ballot of
    [sampleMarginalProbability] computes: the index of a name that is not
    a key is 0, and the name is a key with value 0 from then on. *)
Lemma ballot_indices_spec cm (ballot : list string) (preferences : list nat) :
  let r := PIRVDirichletTree.ballot_indices cm ballot preferences in
  r.1 = preferences ++ ((λ name, default 0%nat (cm !! name)) <$> ballot)
  ∧ ∀ x, r.2 !! x = (if decide (x ∈ ballot)
                     then Some (default 0%nat (cm !! x)) else cm !! x).
Proof.
  revert cm preferences.
  induction ballot as [|name ballot IH]; intros cm preferences.
  { split; [simpl; by rewrite app_nil_r|]. intros x.
    cbn [PIRVDirichletTree.ballot_indices snd].
    rewrite decide_False; [done | apply not_elem_of_nil]. }
  cbn [PIRVDirichletTree.ballot_indices].
  pose proof (index_or_insert_lookup cm name) as Hstep.
  destruct (PIRVDirichletTree.index_or_insert cm name) as [cIndex cm1].
  simpl in Hstep.
  assert (∀ x, default 0%nat (cm1 !! x) = default 0%nat (cm !! x)
               ∨ (x ≠ name ∧ cm1 !! x = cm !! x)) as Hdef.
  { intros x. destruct (Hstep x) as [_ Hx]. case_decide as Hxn.
    - subst x. rewrite Hx. by left.
    - by right. }
  destruct (IH cm1 (preferences ++ [cIndex])) as [Hidx Hmap].
  split.
  - rewrite Hidx, <- app_assoc. destruct (Hstep name) as [-> _].
    f_equal. simpl. f_equal. apply list_fmap_ext. intros _ x _.
    destruct (Hdef x) as [?|[_ Hx]]; [done | by rewrite Hx].
  - intros x. rewrite Hmap. destruct (Hstep x) as [_ Hx].
    destruct (decide (x = name)) as [->|Hne].
    + rewrite (decide_True (P := name ∈ name :: ballot)) by by left.
      rewrite Hx. by destruct (decide (name ∈ ballot)).
    + rewrite Hx. destruct (decide (x ∈ ballot)) as [Hb|Hb].
      * by rewrite (decide_True (P := x ∈ name :: ballot)) by by right.
      * rewrite (decide_False (P := x ∈ name :: ballot)); [done|].
        rewrite elem_of_cons. tauto.
Qed.

Lemma marginal_draws_spec (iters : nat)
    (tr : DirichletTree.t Node IRVBallot IRVParameters E) (b : IRVBallot)
    (out : list Q) :
  let r := PIRVDirichletTree.marginal_draws iters tr b out in
  length r.1 = (length out + iters)%nat
  ∧ DirichletTree.root r.2 = DirichletTree.root tr
  ∧ DirichletTree.parameters r.2 = DirichletTree.parameters tr
  ∧ DirichletTree.observed r.2 = DirichletTree.observed tr.
Proof.
  revert tr out. induction iters as [|iters IH]; intros tr out.
  { simpl. split_and!; [lia | done..]. }
  cbn [PIRVDirichletTree.marginal_draws].
  unfold DirichletTree.marginalProbability. rewrite use_engine_none.
  match goal with
  | |- context [PIRVDirichletTree.marginal_draws iters ?tr1 b ?out1] =>
      destruct (IH tr1 out1) as (Hlen & Hroot & Hpar & Hobs)
  end.
  simpl in *. rewrite Hlen, Hroot, Hpar, Hobs, length_app. simpl.
  split_and!; [lia | done..].
Qed.

(** X19. [sampleMarginalProbability] changes the map of the candidates: every
    name of the ballot that was not a key is a key with index 0 when the
    call returns, and all other keys are as before.  A name that
    [parseBallotList] stopped on before the call is parsed as candidate
    0 after it. *)
Theorem sampleMarginalProbability_inserts_names st (nSamples : Z)
    (ballot : list string) (seed : string) :
  let st' := (PIRVDirichletTree.sampleMarginalProbability st nSamples ballot
                seed).1 in
  (∀ name, PIRVDirichletTree.candidateMap st' !! name
           = if decide (name ∈ ballot)
             then Some (default 0%nat
                          (PIRVDirichletTree.candidateMap st !! name))
             else PIRVDirichletTree.candidateMap st !! name)
  ∧ (∀ name, name ∈ ballot →
             PIRVDirichletTree.candidateMap st !! name = None →
             is_error (PIRVDirichletTree.parseBallotList st [[name]]) = true
             ∧ PIRVDirichletTree.parseBallotList st' [[name]]
               = Ok [(mkIRVBallot [0%nat], 1)]).
Proof.
  intros st'. subst st'. unfold PIRVDirichletTree.sampleMarginalProbability.
  pose proof (ballot_indices_spec (PIRVDirichletTree.candidateMap st) ballot
                []) as [_ Hmap].
  destruct (PIRVDirichletTree.ballot_indices _ ballot []) as [prefs cm1].
  destruct (PIRVDirichletTree.marginal_draws _ _ _ _) as [out tr2].
  simpl in *. split; [exact Hmap|].
  intros name Hin Hnone. unfold PIRVDirichletTree.parseBallotList. simpl.
  specialize (Hmap name). rewrite decide_True in Hmap by done.
  by rewrite Hnone, Hmap, Hnone.
Qed.

(** X20. [sampleMarginalProbability] returns [nSamples] draws, and of the
    tree it moves only the engine: the root, the parameters, the
    observed list, the vector of candidates and the count of
    observations are as before. *)
Theorem sampleMarginalProbability_draws st (nSamples : Z)
    (ballot : list string) (seed : string) :
  0 ≤ nSamples < 2 ^ 31 →
  let r := PIRVDirichletTree.sampleMarginalProbability st nSamples ballot
             seed in
  Z.of_nat (length r.2) = nSamples
  ∧ DirichletTree.root (PIRVDirichletTree.tree r.1)
    = DirichletTree.root (PIRVDirichletTree.tree st)
  ∧ DirichletTree.parameters (PIRVDirichletTree.tree r.1)
    = DirichletTree.parameters (PIRVDirichletTree.tree st)
  ∧ DirichletTree.observed (PIRVDirichletTree.tree r.1)
    = DirichletTree.observed (PIRVDirichletTree.tree st)
  ∧ PIRVDirichletTree.candidateVector r.1
    = PIRVDirichletTree.candidateVector st
  ∧ PIRVDirichletTree.nObserved r.1 = PIRVDirichletTree.nObserved st.
Proof.
  intros Hn r. subst r. unfold PIRVDirichletTree.sampleMarginalProbability.
  destruct (PIRVDirichletTree.ballot_indices _ ballot []) as [prefs cm1].
  pose proof (marginal_draws_spec (Z.to_nat nSamples)
                (DirichletTree.setSeed seed (PIRVDirichletTree.tree st))
                (mkIRVBallot prefs) []) as (Hlen & Hroot & Hpar & Hobs).
  destruct (PIRVDirichletTree.marginal_draws _ _ _ _) as [out tr2].
  simpl in *. split_and!; [lia | done..].
Qed.

Lemma pirv_update_steps (bcs : list IRVBallotCount) st :
  let st' := foldl PIRVDirichletTree.update_step st bcs in
  DirichletTree.observed (PIRVDirichletTree.tree st')
  = DirichletTree.observed (PIRVDirichletTree.tree st) ++ bcs.*1
  ∧ DirichletTree.parameters (PIRVDirichletTree.tree st')
    = DirichletTree.parameters (PIRVDirichletTree.tree st)
  ∧ DirichletTree.engine (PIRVDirichletTree.tree st')
    = DirichletTree.engine (PIRVDirichletTree.tree st)
  ∧ PIRVDirichletTree.candidateVector st'
    = PIRVDirichletTree.candidateVector st
  ∧ PIRVDirichletTree.candidateMap st' = PIRVDirichletTree.candidateMap st
  ∧ (0 ≤ PIRVDirichletTree.nObserved st < 2 ^ 64 →
     PIRVDirichletTree.nObserved st'
     = size_t_of (PIRVDirichletTree.nObserved st + Zsum bcs.*2)).
Proof.
  revert st. induction bcs as [|bc bcs IH]; intros st.
  { simpl. rewrite app_nil_r. split_and!; try done.
    intros Hr. unfold size_t_of, Zsum. simpl.
    rewrite Z.add_0_r, Z.mod_small; [done | lia]. }
  cbn [foldl].
  destruct (IH (PIRVDirichletTree.update_step st bc))
    as (Hobs & Hpar & Heng & Hcv & Hcm & Hn).
  simpl in Hobs, Hpar, Heng, Hcv, Hcm, Hn. simpl.
  split_and!; try done.
  - by rewrite Hobs, <- app_assoc.
  - intros Hr. rewrite Hn by (unfold size_t_of; apply Z.mod_pos_bound; lia).
    rewrite size_t_of_add_l. unfold Zsum. simpl. f_equal. symmetry.
    apply Z.add_assoc.
Qed.

(** X21. [update] of the partial-ballot tree is all or nothing: with a name
    that is not a key it stops and the state is as before; otherwise
    every ballot of the call is appended to the observed list and
    counted once.  [reset] after it sets the count back to 0 and replaces
    the root, and leaves the observed list as [update] left it. *)
Theorem pirv_update_then_reset st (bs : list (list string)) :
  0 ≤ PIRVDirichletTree.nObserved st < 2 ^ 64 →
  let cm := PIRVDirichletTree.candidateMap st in
  let r := PIRVDirichletTree.update st bs in
  (¬ Forall (Forall (λ name, is_Some (cm !! name))) bs →
   r.1 = st ∧ is_error r.2 = true)
  ∧ (Forall (Forall (λ name, is_Some (cm !! name))) bs →
     r.2 = Ok ()
     ∧ DirichletTree.observed (PIRVDirichletTree.tree r.1)
       = DirichletTree.observed (PIRVDirichletTree.tree st)
         ++ (indexed cm <$> bs).*1
     ∧ PIRVDirichletTree.nObserved r.1
       = size_t_of (PIRVDirichletTree.nObserved st + Z.of_nat (length bs))
     ∧ PIRVDirichletTree.candidateMap r.1 = cm
     ∧ PIRVDirichletTree.nObserved (PIRVDirichletTree.reset r.1) = 0
     ∧ DirichletTree.observed
         (PIRVDirichletTree.tree (PIRVDirichletTree.reset r.1))
       = DirichletTree.observed (PIRVDirichletTree.tree st)
         ++ (indexed cm <$> bs).*1
     ∧ DirichletTree.root
         (PIRVDirichletTree.tree (PIRVDirichletTree.reset r.1))
       = new_node 0 (DirichletTree.parameters (PIRVDirichletTree.tree st))).
Proof.
  intros Hn cm r. subst r.
  unfold PIRVDirichletTree.update, PIRVDirichletTree.parseBallotList.
  fold cm. split.
  - intros Hbad.
    destruct (RDirichletTree.parseBallotList_loop cm bs []) as [bcs|msg]
      eqn:Hp; [|done].
    exfalso. apply Hbad. by eapply parseBallotList_loop_Ok.
  - intros Hall. rewrite (parseBallotList_loop_known cm bs [] Hall).
    cbn [app].
    destruct (pirv_update_steps (indexed cm <$> bs) st)
      as (Hobs & Hpar & _ & _ & Hcm & Hcount).
    simpl in *. rewrite Hobs, Hpar, Hcm, (Hcount Hn), Zsum_indexed.
    done.
Qed.

End PartialTreeProperties.

(** ** Re-seeding *)

Section ReseedingProperties.
Import IRV.
Context {Node E : Type}.
Context `{!Mt19937 E, !Distributions E,
          !NodeType Node IRVBallot IRVParameters E Q}.
Implicit Types (st : RDirichletTree.t Node E).






End ReseedingProperties.

(** ** Evaluations on concrete states *)

Section Evaluations.
Import IRV Examples.

(** Closed comparisons are settled by evaluation. *)
Local Ltac evaluate :=
  vm_compute;
  repeat match goal with |- _ ∧ _ => split end;
  first [reflexivity | discriminate].

(** One set of two outcomes is asked of a tree without observations:
    two sets come back. *)
Example posteriorSets_one_set_of_two :
  length (DirichletTree.posteriorSets (RDirichletTree.tree three) 1 2 None).1.1
  = 2%nat.
Proof. vm_compute. reflexivity. Qed.

(** After two observations and a [reset], the count of observed ballots
    is 0, the tree still lists the two ballots, and the sets of
    [posteriorSets] are made of them. *)
Example reset_stale_observed :
  let st := RDirichletTree.reset three_observed in
  let stale := [mkIRVBallot [0; 1]%nat; mkIRVBallot [2%nat]] in
  RDirichletTree.nObserved st = 0
  ∧ DirichletTree.observed (RDirichletTree.tree st) = stale
  ∧ (DirichletTree.posteriorSets (RDirichletTree.tree st) 2 2 None).1.1
    = [stale; stale].
Proof. vm_compute. done. Qed.

Lemma samplePosterior_rejects_nBallots_witness :
  1 < RDirichletTree.nObserved three_observed
  ∧ ∃ msg,
      RDirichletTree.samplePosterior three_observed 10 1 1 2 "s"
      = (three_observed, InvalidArgument msg)
      ∧ ∀ sched,
          RDirichletTree.samplePosterior_with sched three_observed 10 1 1 2
                                              "s"
          = (three_observed, InvalidArgument msg).
Proof.
  split; [vm_compute; reflexivity|].
  apply (samplePosterior_rejects_nBallots three_observed 10 1 1 2 "s").
  vm_compute. reflexivity.
Defined.

(** C6, the claim as stated: a ballot naming the same candidate twice is
    parsed, observed and counted like any other. *)
Lemma update_accepts_duplicate :
  let r := RDirichletTree.update three [["A"; "A"]] in
  ¬ NoDup ["A"; "A"]
  ∧ r.2 = Ok []
  ∧ DirichletTree.observed (RDirichletTree.tree r.1)
    = [mkIRVBallot [0; 0]%nat]
  ∧ RDirichletTree.nObserved r.1 = 1.
Proof.
  split.
  - intros Hnd. apply NoDup_cons in Hnd as [Hnot _]. apply Hnot. by left.
  - vm_compute. done.
Qed.

Lemma update_rejects_unknown_candidate_witness :
  RDirichletTree.candidateMap three !! "D" = None
  ∧ RDirichletTree.update three [["A"; "B"]; ["D"]]
    = (three, InvalidArgument "Unknown candidate encountered in ballot!").
Proof.
  split; [vm_compute; reflexivity|].
  apply (update_rejects_unknown_candidate three [["A"; "B"]; ["D"]]
           ["D"] "D").
  - apply elem_of_cons. right. by left.
  - by left.
  - vm_compute. reflexivity.
Defined.

(** C7, the claim as stated: the empty ballot is appended to the observed
    list, by the facade and so through the interface, where it is counted
    as well. *)
Lemma update_empty_ballot_is_observed :
  DirichletTree.observed
    (DirichletTree.update (RDirichletTree.tree three) empty_ballot 1)
  = [empty_ballot]
  ∧ let r := RDirichletTree.update three [[]] in
    DirichletTree.observed (RDirichletTree.tree r.1) = [empty_ballot]
    ∧ RDirichletTree.nObserved r.1 = 1.
Proof. vm_compute. done. Qed.

Lemma update_empty_ballot_witness :
  DirichletTree.update (RDirichletTree.tree three) empty_ballot 1
  = DirichletTree.mk
      (DirichletTree.root (RDirichletTree.tree three))
      (DirichletTree.parameters (RDirichletTree.tree three))
      (DirichletTree.observed (RDirichletTree.tree three) ++ [empty_ballot])
      (DirichletTree.engine (RDirichletTree.tree three)).
Proof.
  apply (update_empty_ballot (Node := IRVNode) (E := Z)).
  intros p node path count. reflexivity.
Defined.

(** The failing input of C8: the ballot (A) observed twice with count 1,
    and once with count 2. *)
Example update_twice_on_three :
  let tr := RDirichletTree.tree three in
  let b := mkIRVBallot [0%nat] in
  DirichletTree.observed (DirichletTree.update (DirichletTree.update tr b 1) b 1)
  = [b; b]
  ∧ DirichletTree.observed (DirichletTree.update tr b 2) = [b]
  ∧ DirichletTree.root (DirichletTree.update (DirichletTree.update tr b 1) b 1)
    = DirichletTree.root (DirichletTree.update tr b 2).
Proof. vm_compute. done. Qed.

Lemma RSocialChoiceIRV_spec_witness :
  RSocialChoiceIRV (E := Z) [["A"]; ["A"]; ["B"]] 1 "x"
  = Ok (mkIRVResult ["B"] ["A"])
  ∧ ∃ out,
      RSocialChoiceIRV (E := Z) [["A"; "B"; "C"]; ["B"; "A"]; ["C"]] 1 "x"
      = Ok out
      ∧ elimination_order out ++ winners out ≡ₚ ["A"; "B"; "C"]
      ∧ Z.of_nat (length (elimination_order out)) = 3 - 1
      ∧ Z.of_nat (length (winners out)) = 1.
Proof.
  split.
  - destruct (RSocialChoiceIRV_spec (E := Z) [["A"]; ["A"]; ["B"]] 1 "x")
      as (_ & _ & Hvalid).
    destruct Hvalid as (out & Hout & Helim & Hwin & _); [evaluate|].
    destruct out as [eliminated elected]. simpl in Helim, Hwin.
    rewrite Hout, Helim, Hwin. vm_compute. reflexivity.
  - destruct (RSocialChoiceIRV_spec (E := Z)
                [["A"; "B"; "C"]; ["B"; "A"]; ["C"]] 1 "x")
      as (_ & _ & Hvalid).
    destruct Hvalid as (out & Hout & _ & _ & _ & _ & _ & Hperm & Hn & Hw);
      [evaluate|].
    exists out. split_and!; [exact Hout | exact Hperm | exact Hn | exact Hw].
Defined.



Lemma samplePosterior_sum_witness :
  ∃ st' out,
    RDirichletTree.samplePosterior three 10 3 1 2 "s" = (st', Ok out)
    ∧ length out = 3%nat
    ∧ (Qsum out == 6 # 10)%Q.
Proof.
  apply (samplePosterior_sum three 10 3 1 2 "s"); evaluate.
Defined.

Lemma samplePosterior_schedule_independent_witness :
  let orders := RDirichletTree.posterior_jobs three 3 1 2 "s" in
  RDirichletTree.is_schedule 1 orders [0; 1; 2]%nat = true
  ∧ RDirichletTree.is_schedule 4 orders [1; 2; 0]%nat = true
  ∧ RDirichletTree.samplePosterior_with [0; 1; 2]%nat three 3 1 1 2 "s"
    = RDirichletTree.samplePosterior_with [1; 2; 0]%nat three 3 1 1 2 "s"
  ∧ RDirichletTree.samplePosterior_with [0; 1; 2]%nat three 3 1 1 2 "s"
    = RDirichletTree.samplePosterior three 3 1 1 2 "s".
Proof.
  assert (RDirichletTree.is_schedule 1
            (RDirichletTree.posterior_jobs three 3 1 2 "s") [0; 1; 2]%nat
          = true) as Hs1 by (vm_compute; reflexivity).
  assert (RDirichletTree.is_schedule 4
            (RDirichletTree.posterior_jobs three 3 1 2 "s") [1; 2; 0]%nat
          = true) as Hs2 by (vm_compute; reflexivity).
  pose proof (samplePosterior_schedule_independent three 3 1 1 2 "s" 1 4
                [0; 1; 2]%nat [1; 2; 0]%nat 0 Hs1 Hs2) as (Heq & Hseq & _).
  exact (conj Hs1 (conj Hs2 (conj Heq Hseq))).
Defined.

Lemma parseBallotList_known_witness :
  RDirichletTree.parseBallotList three [["A"; "B"]; ["C"]]
  = Ok (indexed (RDirichletTree.candidateMap three) <$> [["A"; "B"]; ["C"]]).
Proof.
  destruct (parseBallotList_known three [["A"; "B"]; ["C"]]) as [Hiff Hval].
  destruct (proj1 Hiff) as [bcs Hp].
  { repeat constructor; vm_compute; by eexists. }
  rewrite Hp. f_equal. by apply Hval.
Defined.

Lemma parse_names_round_trip_witness :
  ∃ bcs,
    RDirichletTree.parseBallotList three [["B"; "A"]; ["C"]] = Ok bcs
    ∧ (λ bc : IRVBallotCount, RDirichletTree.names_of three bc.1) <$> bcs
      = [["B"; "A"]; ["C"]].
Proof.
  apply (parse_names_round_trip (Node := IRVNode) (E := Z) ["A"; "B"; "C"]
           0 3 1%Q false "12345" [["B"; "A"]; ["C"]]).
  repeat constructor.
Defined.

Lemma update_observes_witness :
  DirichletTree.observed
    (RDirichletTree.tree (RDirichletTree.update three [["A"; "B"]; ["C"]]).1)
  = [mkIRVBallot [0; 1]%nat; mkIRVBallot [2%nat]]
  ∧ RDirichletTree.nObserved
      (RDirichletTree.update three [["A"; "B"]; ["C"]]).1
    = 2.
Proof.
  assert (RDirichletTree.parseBallotList three [["A"; "B"]; ["C"]]
          = Ok [(mkIRVBallot [0; 1]%nat, 1); (mkIRVBallot [2%nat], 1)])
    as Hp by (vm_compute; reflexivity).
  assert (0 ≤ RDirichletTree.nObserved three < 2 ^ 64) as Hr by evaluate.
  pose proof (update_observes three _ _ Hp Hr) as (_ & Hobs & _ & Hn & _).
  split.
  - etrans; [exact Hobs | vm_compute; reflexivity].
  - etrans; [exact Hn | vm_compute; reflexivity].
Defined.

Lemma update_warns_short_ballots_witness :
  (RDirichletTree.update (RDirichletTree.setMinDepth three 2).1
     [["A"]; ["B"; "C"]]).2
  = Ok [RDirichletTree.update_warning].
Proof.
  assert (RDirichletTree.parseBallotList
            (RDirichletTree.setMinDepth three 2).1 [["A"]; ["B"; "C"]]
          = Ok [(mkIRVBallot [0%nat], 1); (mkIRVBallot [1; 2]%nat, 1)])
    as Hp by (vm_compute; reflexivity).
  pose proof (update_warns_short_ballots _ _ _ Hp) as [Hw _].
  etrans; [exact Hw | vm_compute; reflexivity].
Defined.

Lemma update_app_witness :
  ∃ ws1 ws2,
    (RDirichletTree.update three [["A"; "B"]]).2 = Ok ws1
    ∧ (RDirichletTree.update (RDirichletTree.update three [["A"; "B"]]).1
         [["C"]]).2 = Ok ws2
    ∧ RDirichletTree.update three ([["A"; "B"]] ++ [["C"]])
      = ((RDirichletTree.update (RDirichletTree.update three [["A"; "B"]]).1
            [["C"]]).1, Ok (ws1 ++ ws2)).
Proof.
  assert (RDirichletTree.parseBallotList three ([["A"; "B"]] ++ [["C"]])
          = Ok [(mkIRVBallot [0; 1]%nat, 1); (mkIRVBallot [2%nat], 1)])
    as Hp by (vm_compute; reflexivity).
  exact (update_app three [["A"; "B"]] [["C"]] _ Hp).
Defined.


Lemma batch_sizes_sum_witness :
  let '(batchSize, batchRemainder) := RDirichletTree.batch_sizes 10 3 in
  batchSize * 3 + batchRemainder = 10
  ∧ 0 ≤ batchSize ∧ 0 ≤ batchRemainder
  ∧ (1 < 10 → batchRemainder < 3)
  ∧ (10 ≤ 1 → batchSize = 0).
Proof. apply (batch_sizes_sum 10 3); lia. Defined.

Lemma sampling_changes_engine_only_witness :
  (RDirichletTree.samplePosterior_with [0; 1; 2]%nat three 3 1 1 2 "s").1
  = RDirichletTree.with_engine
      (mt_discard (state_size * 100)
         (RDirichletTree.draw_seeds (S (Z.to_nat 2))
            (warmup (mt_seed_seq "s")) []).2)
      three.
Proof.
  pose proof (sampling_changes_engine_only three 5 3 1 1 2 "s"
                [0; 1; 2]%nat) as [_ Hpost].
  apply Hpost; [evaluate | lia].
Defined.

Lemma samplePosterior_unchecked_nWinners_witness :
  (RDirichletTree.samplePosterior_with [0; 1; 2]%nat three 3 1 5 2 "s").2
  = Ok (replicate
          (Z.to_nat (getNCandidates (RDirichletTree.parameters_of three)))
          (inject_Z 0 / inject_Z 3)%Q).
Proof.
  apply (samplePosterior_unchecked_nWinners three 3 1 5 2 "s" [0; 1; 2]%nat).
  - lia.
  - evaluate.
  - lia.
  - evaluate.
  - right. evaluate.
Defined.

Lemma depths_ordered_kept_witness :
  RDirichletTree.depths_ordered (RDirichletTree.setMinDepth three 2).1
  ∧ (RDirichletTree.setMinDepth three 4).1 = three
  ∧ RDirichletTree.depths_ordered (RDirichletTree.update three [["A"]]).1.
Proof.
  pose proof (depths_ordered_kept three 2 1%Q false [["A"]] 1 1 1 1 1 "s" [])
    as (Hmin & _ & _ & _ & Hkept).
  pose proof (depths_ordered_kept three 4 1%Q false [["A"]] 1 1 1 1 1 "s" [])
    as (_ & _ & Hrefused & _).
  assert (RDirichletTree.depths_ordered three) as Hord
      by (unfold RDirichletTree.depths_ordered; evaluate).
  destruct (Hkept Hord) as (_ & _ & _ & _ & Hupdate & _).
  split_and!.
  - apply Hmin. vm_compute. reflexivity.
  - apply Hrefused. vm_compute. reflexivity.
  - exact Hupdate.
Defined.

Lemma in_sync_kept_witness :
  RDirichletTree.in_sync three ∧ RDirichletTree.in_sync three_observed.
Proof.
  pose proof (in_sync_kept three ["A"; "B"; "C"] 0 3 1%Q false "12345" 0
                [["A"; "B"]; ["C"]] 1 1 1 1 1 "s" []) as (Hmake & Hupd & _).
  split; [exact Hmake|]. apply Hupd; [exact Hmake | evaluate].
Defined.

Lemma setMinDepth_warns_after_update_witness :
  (RDirichletTree.setMinDepth
     (RDirichletTree.update three [["A"]; ["B"; "C"]]).1 2).2
  = Ok [RDirichletTree.minDepth_warning]
  ∧ (RDirichletTree.setMinDepth
       (RDirichletTree.reset
          (RDirichletTree.update three [["A"]; ["B"; "C"]]).1) 2).2
    = Ok [].
Proof.
  apply (setMinDepth_warns_after_update three [["A"]; ["B"; "C"]]
           [(mkIRVBallot [0%nat], 1); (mkIRVBallot [1; 2]%nat, 1)] ["A"] 2).
  - vm_compute. reflexivity.
  - by left.
  - evaluate.
  - lia.
  - evaluate.
Defined.

Lemma sampleMarginalProbability_inserts_names_witness :
  is_error (PIRVDirichletTree.parseBallotList three_pirv [["D"]]) = true
  ∧ PIRVDirichletTree.parseBallotList
      (PIRVDirichletTree.sampleMarginalProbability three_pirv 2 ["D"] "s").1
      [["D"]]
    = Ok [(mkIRVBallot [0%nat], 1)].
Proof.
  pose proof (sampleMarginalProbability_inserts_names three_pirv 2 ["D"] "s")
    as [_ Hnew].
  apply (Hnew "D"); [by left | vm_compute; reflexivity].
Defined.

Lemma sampleMarginalProbability_draws_witness :
  Z.of_nat
    (length (PIRVDirichletTree.sampleMarginalProbability three_pirv 3
               ["A"; "B"] "s").2)
  = 3.
Proof.
  pose proof (sampleMarginalProbability_draws three_pirv 3 ["A"; "B"] "s"
                ltac:(lia)) as (Hlen & _).
  exact Hlen.
Defined.

Lemma pirv_update_then_reset_witness :
  PIRVDirichletTree.nObserved
    (PIRVDirichletTree.update three_pirv [["A"; "B"]; ["C"]]).1
  = 2
  ∧ PIRVDirichletTree.nObserved
      (PIRVDirichletTree.reset
         (PIRVDirichletTree.update three_pirv [["A"; "B"]; ["C"]]).1)
    = 0
  ∧ DirichletTree.observed
      (PIRVDirichletTree.tree
         (PIRVDirichletTree.reset
            (PIRVDirichletTree.update three_pirv [["A"; "B"]; ["C"]]).1))
    = [mkIRVBallot [0; 1]%nat; mkIRVBallot [2%nat]].
Proof.
  assert (0 ≤ PIRVDirichletTree.nObserved three_pirv < 2 ^ 64) as Hr
      by evaluate.
  pose proof (pirv_update_then_reset three_pirv [["A"; "B"]; ["C"]] Hr)
    as [_ Hgood].
  destruct Hgood as (_ & _ & Hn & _ & Hzero & Hobs & _).
  { repeat constructor; vm_compute; by eexists. }
  split_and!.
  - etrans; [exact Hn | vm_compute; reflexivity].
  - exact Hzero.
  - etrans; [exact Hobs | vm_compute; reflexivity].
Defined.

End Evaluations.
